(** * document_db_lite: the [Table] class of [Table.py]

    A shallow embedding of [Table.py] and the properties of its
    specification.  The SQLite file the class talks to is a finite map
    from table names to relations; every statement the class issues is
    given its meaning on that map in [Module Sqlite].  The class builds
    its statements by splicing Python values into text; where the text
    SQLite receives is not the statement the code means (a quote inside
    a text value, an integer outside 64 bits, ...) the model stops with
    [Unmodelled] instead of guessing what SQLite makes of it. *)

From stdpp Require Import gmap strings list fin_maps.
From Stdlib Require Import ZArith Ascii String Sorted.

Local Open Scope string_scope.
Local Open Scope Z_scope.
Local Open Scope list_scope.

(** ** Outcomes of a call *)

(** The exception classes of [Table.py] and the built-in ones its code
    can raise. *)
Inductive exn : Type :=
  | InvalidRecordError
  | TableNotFoundError
  | ValueError
  | OperationalError
  | IntegrityError
  | IndexError
  | TypeError
  | KeyError.

(** A call returns, raises, leaves the model, or exhausts the recursion
    budget of the model. *)
Inductive result (A : Type) : Type :=
  | Ok (a : A)
  | Raise (e : exn)
  | Unmodelled
  | OutOfFuel.

Arguments Ok {A} a.
Arguments Raise {A} e.
Arguments Unmodelled {A}.
Arguments OutOfFuel {A}.

Global Instance result_bind : MBind result := fun A B k m =>
  match m with
  | Ok a => k a
  | Raise e => Raise e
  | Unmodelled => Unmodelled
  | OutOfFuel => OutOfFuel
  end.

Global Instance result_ret : MRet result := fun A a => Ok a.

Definition is_ok {A} (m : result A) : bool :=
  match m with Ok _ => true | _ => false end.

(** ** Values, column types and records *)

(** Python values a field can hold.  A float is kept as its 64 bits and
    a byte string as its characters. *)
Inductive value : Type :=
  | VNone
  | VInt (z : Z)
  | VFloat (bits : Z)
  | VStr (s : string)
  | VBytes (b : string).

Global Instance value_eq_dec : EqDecision value.
Proof. solve_decision. Defined.

(** The keys of [Table.valid_types]. *)
Inductive ftype : Type := INTEGER | REAL | TEXT | BLOB.

Global Instance ftype_eq_dec : EqDecision ftype.
Proof. solve_decision. Defined.

(** [isinstance(v, Table.valid_types[ty])]. *)
Definition isinstance (v : value) (ty : ftype) : bool :=
  match v, ty with
  | VInt _, INTEGER => true
  | VFloat _, REAL => true
  | VStr _, TEXT => true
  | VBytes _, BLOB => true
  | _, _ => false
  end.

(** A record dict: the [id] key, the field keys and the [subrecords]
    key.  [id] and [subrecords] are optional because a dict handed to
    [is_valid_record] may lack them; the field keys never include
    ["id"] or ["subrecords"], which are the two other components.
    [subrecords] is a dict in insertion order, table name to list of
    records. *)
#[warnings="-register-all"]
Inductive record : Type :=
  Rec (rid : option Z) (rfields : gmap string value)
      (rsubs : option (list (string * list record))).

Definition rid (r : record) : option Z :=
  match r with Rec i _ _ => i end.
Definition rfields (r : record) : gmap string value :=
  match r with Rec _ f _ => f end.
Definition rsubs (r : record) : option (list (string * list record)) :=
  match r with Rec _ _ s => s end.

(** [len(record)]. *)
Definition record_len (r : record) : Z :=
  Z.of_nat (size (rfields r))
  + (if rid r is Some _ then 1 else 0)
  + (if rsubs r is Some _ then 1 else 0).

(** ** Text helpers *)

Definition upper_ascii (c : ascii) : ascii :=
  let n := N_of_ascii c in
  if ((97 <=? n) && (n <=? 122))%N then ascii_of_N (n - 32) else c.

Definition lower_ascii (c : ascii) : ascii :=
  let n := N_of_ascii c in
  if ((65 <=? n) && (n <=? 90))%N then ascii_of_N (n + 32) else c.

(** [s.upper()] on ASCII text. *)
Fixpoint upper (s : string) : string :=
  match s with
  | EmptyString => EmptyString
  | String c s' => String (upper_ascii c) (upper s')
  end.

(** The double quote character. *)
Definition dquote : ascii := ascii_of_N 34.

(** [c in s]. *)
Fixpoint has_char (c : ascii) (s : string) : bool :=
  match s with
  | EmptyString => false
  | String d s' => if Ascii.eqb c d then true else has_char c s'
  end.

(** [s.count(c)]. *)
Fixpoint count_char (c : ascii) (s : string) : Z :=
  match s with
  | EmptyString => 0
  | String d s' => (if Ascii.eqb c d then 1 else 0) + count_char c s'
  end.

(** [s.find(c)]: the first index of [c], or [-1]. *)
Fixpoint find (c : ascii) (s : string) : Z :=
  match s with
  | EmptyString => -1
  | String d s' =>
      if Ascii.eqb c d then 0
      else let i := find c s' in if i <? 0 then -1 else i + 1
  end.

Fixpoint drop_str (n : nat) (s : string) : string :=
  match n, s with
  | O, _ => s
  | S n', String _ s' => drop_str n' s'
  | S _, EmptyString => EmptyString
  end.

Fixpoint take_str (n : nat) (s : string) : string :=
  match n, s with
  | S n', String c s' => String c (take_str n' s')
  | _, _ => EmptyString
  end.

(** [s[a:b]] and [s[a:]] for non-negative bounds, the only ones the
    code uses. *)
Definition slice (s : string) (a b : Z) : string :=
  take_str (Z.to_nat (b - a)) (drop_str (Z.to_nat a) s).
Definition slice_from (s : string) (a : Z) : string :=
  drop_str (Z.to_nat a) s.

(** [c.isspace()] for a one-character string. *)
Definition is_space (c : ascii) : bool :=
  let n := N_of_ascii c in
  (((9 <=? n) && (n <=? 13)) || ((28 <=? n) && (n <=? 32))
   || (n =? 133) || (n =? 160))%N.

Fixpoint lstrip (s : string) : string :=
  match s with
  | EmptyString => EmptyString
  | String c s' => if is_space c then lstrip s' else s
  end.

Fixpoint rstrip (s : string) : string :=
  match s with
  | EmptyString => EmptyString
  | String c s' =>
      match rstrip s' with
      | EmptyString => if is_space c then EmptyString else String c EmptyString
      | t => String c t
      end
  end.

(** [s.strip()]. *)
Definition strip (s : string) : string := rstrip (lstrip s).

(** ** The SQLite file *)

(** The [subrecords] column: the JSON object the code writes, as the
    sequence of its members, table name to list of ids. *)
Definition manifest : Type := list (string * list Z).

(** [d[k] = v] on a dict in insertion order: a key that is there
    keeps its position and takes the new value. *)
Fixpoint dict_set {A} (k : string) (v : A) (d : list (string * A))
  : list (string * A) :=
  match d with
  | [] => [(k, v)]
  | (k', v') :: d' =>
      if String.eqb k k' then (k, v) :: d' else (k', v') :: dict_set k v d'
  end.

(** [json.loads] of a stored manifest, as the dict Python builds. *)
Definition json_loads (m : manifest) : manifest :=
  fold_left (fun d kv => dict_set (fst kv) (snd kv) d) m [].

(** A row: the values of its field columns (a column without an entry
    is NULL) and its manifest.  The [id] column is the key of the row
    in its relation. *)
Record row : Type := Row {
  r_vals : gmap string value;
  r_sub : manifest
}.

(** A relation: its field columns with their declared types (the [id]
    and [subrecords] columns are always there) and its rows by [id],
    the INTEGER PRIMARY KEY. *)
Record relation : Type := Relation {
  cols : gmap string ftype;
  rows : gmap Z row
}.

Abbreviation db := (gmap string relation).

Module Sqlite.

(** The string [s] names a column of a table whose field columns are
    [cs]: SQLite compares names without case, and [rowid], [oid] and
    [_rowid_] name the id. *)
Definition names_column (cs : gmap string ftype) (s : string) : bool :=
  bool_decide (upper s ∈ upper <$>
    ("id" :: "subrecords" :: "rowid" :: "oid" :: "_rowid_"
     :: (map_to_list cs).*1)).

(** [z] is an INTEGER of SQLite, signed and of 64 bits. *)
Definition int64 (z : Z) : bool :=
  (- 2 ^ 63 <? z) && (z <? 2 ^ 63).

(** What SQLite stores for a Python value that [save_record] splices
    into a statement ([str(v)], or [v] between double quotes for a
    string) bound for a column of type [ty] of a table whose columns
    are [cs]; [None] when the text is not a literal of that value:
    - an integer outside the signed 64-bit range is read as a real;
    - a string between double quotes is, for SQLite as it is built by
      default, a string literal unless it names a column in scope,
      and a double quote inside it ends it early;
    - [str] of a float need not be read back as the same float, and
      of [bytes] or [None] is no literal at all;
    - a value of another type than the column is converted. *)
Definition literal (cs : gmap string ftype) (ty : ftype) (v : value)
  : option value :=
  match v, ty with
  | VInt z, INTEGER => if int64 z then Some v else None
  | VStr s, TEXT =>
      if has_char dquote s || names_column cs s then None else Some v
  | _, _ => None
  end.

(** The values of a statement, each bound for the column it names. *)
Definition literals (cs : gmap string ftype) (vals : gmap string value)
  : option (gmap string value) :=
  if bool_decide (map_Forall (fun f v =>
       is_Some (ty ← cs !! f; literal cs ty v)) vals)
  then Some vals else None.

(** [PRAGMA table_info(name)]: no rows when there is no such table. *)
Definition table_info (d : db) (name : string) : option relation :=
  d !! name.

(** A SELECT of the columns [id, fs..., subrecords]: the statement
    text is ["SELECT id, " + ", ".join(fs) + ", subrecords FROM ..."],
    which is malformed when [fs] is empty.  A name in [fs] that is
    not a field column is not followed further. *)
Definition select_cols (d : db) (name : string) (fs : gmap string ftype)
  : result relation :=
  match d !! name with
  | None => Raise OperationalError
  | Some rel =>
      if bool_decide (fs = ∅) then Raise OperationalError
      else if bool_decide (map_Forall (fun f _ => is_Some (cols rel !! f)) fs)
      then Ok rel else Unmodelled
  end.

(** The tuple the cursor yields for a row: [id], the value of each
    field of [fs] under its name ([None] for NULL), and the manifest
    text. *)
Definition tuple : Type := Z * gmap string value * manifest.

Definition to_tuple (fs : gmap string ftype) (i : Z) (r : row) : tuple :=
  (i, map_imap (fun f _ => Some (default VNone (r_vals r !! f))) fs,
   r_sub r).

(** [SELECT id, fs..., subrecords FROM name WHERE id = i], [fetchone]. *)
Definition select_row (d : db) (name : string) (fs : gmap string ftype)
    (i : Z) : result (option tuple) :=
  rel ← select_cols d name fs;
  Ok (to_tuple fs i <$> rows rel !! i).

(** [SELECT id, fs..., subrecords FROM name], [fetchall]; the rows
    come in the order of the store. *)
Definition select_all (d : db) (name : string) (fs : gmap string ftype)
  : result (list tuple) :=
  rel ← select_cols d name fs;
  Ok ((fun ir => to_tuple fs (fst ir) (snd ir)) <$> map_to_list (rows rel)).

(** [SELECT id FROM name WHERE id = i], [fetchone]. *)
Definition select_id (d : db) (name : string) (i : Z)
  : result (option Z) :=
  match d !! name with
  | None => Raise OperationalError
  | Some rel => Ok ((fun _ => i) <$> rows rel !! i)
  end.

(** [SELECT MAX(id) FROM name], [fetchone]: always one tuple, whose
    component is NULL for a table without rows. *)
Definition max_id (rel : relation) : option Z :=
  map_fold (fun i _ acc =>
    Some (match acc with Some m => Z.max i m | None => i end))
    None (rows rel).

Definition select_max (d : db) (name : string)
  : result (option (option Z)) :=
  match d !! name with
  | None => Raise OperationalError
  | Some rel => Ok (Some (max_id rel))
  end.

(** [SELECT subrecords FROM name WHERE id = 0], [fetchone]. *)
Definition select_meta (d : db) (name : string)
  : result (option manifest) :=
  match d !! name with
  | None => Raise OperationalError
  | Some rel => Ok (r_sub <$> rows rel !! 0)
  end.

(** [INSERT INTO name (id,fs...,subrecords) VALUES (i,vals...,m)];
    the column list is ["(id," + ",".join(fs) + ",subrecords)"],
    malformed when there is no field. *)
Definition insert (d : db) (name : string) (i : Z)
    (vals : gmap string value) (m : manifest) : db * result unit :=
  match d !! name with
  | None => (d, Raise OperationalError)
  | Some rel =>
      if bool_decide (vals = ∅) then (d, Raise OperationalError)
      else if negb (int64 i) then (d, Unmodelled)
      else match literals (cols rel) vals with
           | None => (d, Unmodelled)
           | Some stored =>
               match rows rel !! i with
               | Some _ => (d, Raise IntegrityError)
               | None =>
                   (<[name := Relation (cols rel)
                        (<[i := Row stored m]> (rows rel))]> d, Ok tt)
               end
           end
  end.

(** [UPDATE name SET f = v, ..., subrecords = m WHERE id = i]: the
    named columns of the row at [i] are replaced, the others kept;
    no row at [i], no change. *)
Definition update (d : db) (name : string) (i : Z)
    (vals : gmap string value) (m : manifest) : db * result unit :=
  match d !! name with
  | None => (d, Raise OperationalError)
  | Some rel =>
      match literals (cols rel) vals with
      | None => (d, Unmodelled)
      | Some stored =>
          match rows rel !! i with
          | None => (d, Ok tt)
          | Some old =>
              (<[name := Relation (cols rel)
                   (<[i := Row (stored ∪ r_vals old) m]> (rows rel))]> d,
               Ok tt)
          end
      end
  end.

(** [DELETE FROM name WHERE id = i]. *)
Definition delete (d : db) (name : string) (i : Z) : db * result unit :=
  match d !! name with
  | None => (d, Raise OperationalError)
  | Some rel =>
      (<[name := Relation (cols rel) (base.delete i (rows rel))]> d, Ok tt)
  end.

(** [CREATE TABLE name (id INTEGER PRIMARY KEY NOT NULL, fs...,
    subrecords TEXT)] followed by the INSERT of row 0 with the
    manifest [m]; SQLite refuses two columns of one name, compared
    without case. *)
Definition create (d : db) (name : string) (fs : gmap string ftype)
    (m : manifest) : db * result unit :=
  if bool_decide (NoDup (upper <$>
       ("id" :: "subrecords" :: (map_to_list fs).*1)))
  then (<[name := Relation fs {[ 0 := Row ∅ m ]}]> d, Ok tt)
  else (d, Raise OperationalError).

(** The LIKE operator of SQLite: [%] matches any run of characters,
    [_] any one character, and ASCII letters match without case. *)
Fixpoint like (p : string) (s : string) : bool :=
  match p with
  | EmptyString =>
      match s with EmptyString => true | _ => false end
  | String c p' =>
      if Ascii.eqb c "%" then
        (fix skip (s : string) : bool :=
           like p' s
           || match s with
              | EmptyString => false
              | String _ s' => skip s'
              end) s
      else
        match s with
        | EmptyString => false
        | String d s' =>
            (Ascii.eqb c "_" || Ascii.eqb (lower_ascii c) (lower_ascii d))
            && like p' s'
        end
  end.

(** The test [f LIKE p1 OR f LIKE p2 OR ...] on a row: a NULL field
    matches nothing; a value that is not a text is not followed. *)
Definition like_row (f : string) (pats : list string) (r : row)
  : option bool :=
  match r_vals r !! f with
  | None | Some VNone => Some false
  | Some (VStr s) => Some (existsb (fun p => like p s) pats)
  | Some _ => None
  end.

(** [SELECT id FROM name WHERE (f LIKE "%k1%" OR ...) AND id != e1
    AND ...], [fetchall], with [pats] the patterns between the double
    quotes.  Followed for a text column and patterns without a double
    quote, which would end the spliced literal early. *)
Definition select_like (d : db) (name : string) (f : string)
    (pats : list string) (exclude : list Z) : result (list Z) :=
  match d !! name with
  | None => Raise OperationalError
  | Some rel =>
      if bool_decide (cols rel !! f = Some TEXT)
         && forallb (fun p => negb (has_char dquote p)) pats
         && forallb (fun ir => bool_decide (is_Some (like_row f pats (snd ir))))
              (map_to_list (rows rel))
      then Ok (fst <$> List.filter (fun ir =>
             bool_decide (like_row f pats (snd ir) = Some true)
             && bool_decide (fst ir ∉ exclude)) (map_to_list (rows rel)))
      else Unmodelled
  end.

End Sqlite.

(** ** The [Table] class *)

(** A [Table] object.  [db_loc] is left out: the model has one
    database file, passed to every method as [d]. *)
Record Table : Type := MkTable {
  table_name : string;
  _subtables : list string;
  _fields : gmap string ftype;
  _max_id : Z
}.

(** The lookup [Table.valid_types[s.upper()]] of [__init__]. *)
Definition valid_types (s : string) : option ftype :=
  if String.eqb s "INTEGER" then Some INTEGER
  else if String.eqb s "REAL" then Some REAL
  else if String.eqb s "TEXT" then Some TEXT
  else if String.eqb s "BLOB" then Some BLOB
  else None.

(** [Table._create_self]. *)
Definition _create_self (d : db) (T : Table) : db * result unit :=
  match Sqlite.table_info d (table_name T) with
  | None =>
      Sqlite.create d (table_name T) (_fields T)
        ((fun table => (table, [])) <$> _subtables T)
  | Some _ => (d, Ok tt)
  end.

(** [Table.__init__]: the constructor [Table(db_loc, table_name,
    fields_and_types, subtables)]. *)
Definition Table_init (d : db) (name : string)
    (fields_and_types : gmap string string) (subtables : list string)
  : db * result Table :=
  let typed := (fun ty => valid_types (upper ty)) <$> fields_and_types in
  if bool_decide (map_Forall (fun _ ty => is_Some ty) typed) then
    let T := MkTable name subtables (omap id typed) 0 in
    let (d', r) := _create_self d T in
    (d', _ ← r; Ok T)
  else (d, Raise ValueError).

(** [Table.get_table], the probe for the database file apart.  The
    constructor it ends with finds the table in place and its field
    types among [valid_types], so it creates nothing; the columns of
    a relation are its field columns, [id] and [subrecords] apart. *)
Definition get_table (d : db) (name : string) : result Table :=
  match Sqlite.table_info d name with
  | None => Raise TableNotFoundError
  | Some rel =>
      resp ← Sqlite.select_meta d name;
      match resp with
      | None => Ok (MkTable name [] (cols rel) 0)
      | Some subrecords_raw =>
          Ok (MkTable name (fst <$> json_loads subrecords_raw) (cols rel) 0)
      end
  end.

(** [Table.get_next_id]; [fuel] bounds the retries. *)
Fixpoint get_next_id (fuel : nat) (d : db) (T : Table) : Table * result Z :=
  match fuel with
  | O => (T, OutOfFuel)
  | S fuel' =>
      let bump := MkTable (table_name T) (_subtables T) (_fields T)
                    (_max_id T + 1) in
      match Sqlite.select_max d (table_name T) with
      | Ok None => (bump, Ok (_max_id T + 1))
      | Ok (Some None) => (T, Raise TypeError)
      | Ok (Some (Some table_max_id)) =>
          if table_max_id <? _max_id T then
            match Sqlite.select_id d (table_name T) (_max_id T) with
            | Ok None => (bump, Ok (_max_id T + 1))
            | Ok (Some _) => get_next_id fuel' d bump
            | Raise e => (T, Raise e)
            | Unmodelled => (T, Unmodelled)
            | OutOfFuel => (T, OutOfFuel)
            end
          else
            (MkTable (table_name T) (_subtables T) (_fields T)
               (table_max_id + 1), Ok (table_max_id + 1))
      | Raise e => (T, Raise e)
      | Unmodelled => (T, Unmodelled)
      | OutOfFuel => (T, OutOfFuel)
      end
  end.

(** The body shared by [get_record] and the loop of [fetchall]: the
    record of a fetched tuple, its subrecords fetched through [get]
    from the table [get_table] finds for each name. *)
Definition hydrate (get : Table -> Z -> result record) (d : db)
    (resp : Sqlite.tuple) : result record :=
  let '(i, vals, subrecords_raw) := resp in
  subrecords ← mapM (fun '(table_name, ids) =>
      recs ← mapM (fun i => T' ← get_table d table_name; get T' i) ids;
      Ok (table_name, recs)) (json_loads subrecords_raw);
  Ok (Rec (Some i) vals (Some subrecords)).

(** [Table.get_record]; [fuel] bounds the depth of the recursion
    through the manifests. *)
Fixpoint get_record (fuel : nat) (d : db) (T : Table) (i : Z)
  : result record :=
  match fuel with
  | O => OutOfFuel
  | S fuel' =>
      resp ← Sqlite.select_row d (table_name T) (_fields T) i;
      match resp with
      | None => Raise InvalidRecordError
      | Some tup => hydrate (get_record fuel' d) d tup
      end
  end.

(** [Table.fetchall]. *)
Definition fetchall (fuel : nat) (d : db) (T : Table)
  : result (list record) :=
  resp ← Sqlite.select_all d (table_name T) (_fields T);
  match resp with
  | [] => Ok []
  | _ => mapM (hydrate (get_record fuel d) d) resp
  end.

(** [field in record] followed by [isinstance(record[field], ...)] in
    [is_valid_record], on a record that has its [id] and [subrecords]
    keys: [record["id"]] is an int and [record["subrecords"]] a dict. *)
Definition field_ok (r : record) (field : string) (ty : ftype) : bool :=
  if String.eqb field "id" then bool_decide (ty = INTEGER)
  else if String.eqb field "subrecords" then false
  else match rfields r !! field with
       | Some v => isinstance v ty
       | None => false
       end.

(** The two loops that close [is_valid_record]: over the tables of
    [record["subrecords"]] and over the records of each, every one
    checked by [valid] against the table [get_table] finds. *)
Definition valid_each (valid : Table -> record -> result bool) (d : db)
    (table : string) : list record -> result bool :=
  fix each (rs : list record) : result bool :=
    match rs with
    | [] => Ok true
    | rec :: rs' =>
        T' ← get_table d table;
        resp ← valid T' rec;
        if resp : bool then each rs' else Ok false
    end.

Definition valid_tables (valid : Table -> record -> result bool) (d : db)
    (T : Table) : list (string * list record) -> result bool :=
  fix tables (l : list (string * list record)) : result bool :=
    match l with
    | [] => Ok true
    | (table, recs) :: l' =>
        if negb (bool_decide (table ∈ _subtables T)) then Ok false
        else
          ok ← valid_each valid d table recs;
          if ok : bool then tables l' else Ok false
    end.

(** [Table.is_valid_record]: the flag of the returned pair; the
    message is left out. *)
Fixpoint is_valid_record (d : db) (T : Table) (r : record) : result bool :=
  match r with
  | Rec i f s =>
      if negb (record_len (Rec i f s) - 2 =? Z.of_nat (size (_fields T)))
      then Ok false
      else match i, s with
      | None, _ => Ok false
      | Some _, None => Ok false
      | Some _, Some subrecords =>
          if negb (List.length (_subtables T) =? List.length subrecords)%nat
          then Ok false
          else if negb (bool_decide
                    (map_Forall (fun field ty => field_ok (Rec i f s) field ty)
                       (_fields T)))
          then Ok false
          else valid_tables (fun T' rec => is_valid_record d T' rec) d T
                 subrecords
      end
  end.

(** The manifest [save_record] writes: per table of [subrecords], the
    ids of its records. *)
Definition ids_of (recs : list record) : result (list Z) :=
  mapM (fun rec => match rid rec with
                   | Some i => Ok i
                   | None => Raise KeyError
                   end) recs.

Definition manifest_of (subrecords : list (string * list record))
  : result manifest :=
  mapM (fun '(table, recs) => ids ← ids_of recs; Ok (table, ids)) subrecords.

(** The write of [save_record] for one record: the probe for a row at
    [id], then UPDATE or INSERT. *)
Definition upsert (d : db) (T : Table) (i : Z) (f : gmap string value)
    (m : manifest) : db * result unit :=
  match Sqlite.select_id d (table_name T) i with
  | Ok (Some _) => Sqlite.update d (table_name T) i f m
  | Ok None => Sqlite.insert d (table_name T) i f m
  | Raise e => (d, Raise e)
  | Unmodelled => (d, Unmodelled)
  | OutOfFuel => (d, OutOfFuel)
  end.

(** The loops that close [save_record]: every record of every table
    of [record["subrecords"]] is saved by [save] through the table
    [get_table] finds; the first failure ends the call. *)
Definition save_each (save : db -> Table -> record -> db * result unit)
    (table : string) : db -> list record -> db * result unit :=
  fix each (d : db) (rs : list record) : db * result unit :=
    match rs with
    | [] => (d, Ok tt)
    | rec :: rs' =>
        match get_table d table with
        | Ok T' =>
            match save d T' rec with
            | (d', Ok _) => each d' rs'
            | (d', e) => (d', e)
            end
        | Raise e => (d, Raise e)
        | Unmodelled => (d, Unmodelled)
        | OutOfFuel => (d, OutOfFuel)
        end
    end.

Definition save_tables (save : db -> Table -> record -> db * result unit)
  : db -> list (string * list record) -> db * result unit :=
  fix tables (d : db) (l : list (string * list record)) : db * result unit :=
    match l with
    | [] => (d, Ok tt)
    | (table, recs) :: l' =>
        match save_each save table d recs with
        | (d', Ok _) => tables d' l'
        | (d', e) => (d', e)
        end
    end.

(** [Table.save_record]: the database after the call and its outcome;
    rows written before a failure stay written. *)
Fixpoint save_record (d : db) (T : Table) (r : record) : db * result unit :=
  match is_valid_record d T r with
  | Ok true =>
      match r with
      | Rec (Some i) f (Some subrecords) =>
          match manifest_of subrecords with
          | Ok m =>
              match upsert d T i f m with
              | (d1, Ok _) =>
                  save_tables (fun d' T' rec => save_record d' T' rec)
                    d1 subrecords
              | (d1, e) => (d1, e)
              end
          | Raise e => (d, Raise e)
          | Unmodelled => (d, Unmodelled)
          | OutOfFuel => (d, OutOfFuel)
          end
      | _ => (d, Raise KeyError)
      end
  | Ok false => (d, Raise InvalidRecordError)
  | Raise e => (d, Raise e)
  | Unmodelled => (d, Unmodelled)
  | OutOfFuel => (d, OutOfFuel)
  end.

(** [Table.create_record]: the handle after the call (its [_max_id]
    moves) and the outcome.  [fields] is the caller's dict: its keys
    are copied over the fresh [{"id": ...}], so an ["id"] key replaces
    the allocated id, and a ["subrecords"] key is replaced by the
    [subrecords] argument, whose default is the empty dict. *)
Definition create_record (fuel : nat) (d : db) (T : Table)
    (fields : gmap string value) (subrecords : list (string * list record))
  : Table * result record :=
  let (T', next) := get_next_id fuel d T in
  (T',
   next_id ← next;
   i ← match fields !! "id" with
       | None => Ok next_id
       | Some (VInt z) => Ok z
       | Some _ => Unmodelled
       end;
   let record :=
     Rec (Some i) (base.delete "id" (base.delete "subrecords" fields))
       (Some subrecords) in
   resp ← is_valid_record d T' record;
   if resp : bool then Ok record else Raise InvalidRecordError).

(** [Table.delete_record]. *)
Definition delete_record (d : db) (T : Table) (i : Z) : db * result unit :=
  Sqlite.delete d (table_name T) i.

(** [_get_keywords], the helper of [search_records]; [fuel] bounds the
    recursion. *)
Fixpoint _get_keywords (fuel : nat) (s : string) : result (list string) :=
  match fuel with
  | O => OutOfFuel
  | S fuel' =>
      let s := strip s in
      match s with
      | EmptyString => Raise IndexError
      | String c _ =>
          if Ascii.eqb c dquote && (1 <? count_char dquote s) then
            let phrase_end := find dquote (slice_from s 1) + 1 in
            rest ← _get_keywords fuel' (slice_from s (phrase_end + 1));
            Ok (slice s 1 phrase_end :: rest)
          else if has_char " " s then
            let space_loc := find " " s in
            rest ← _get_keywords fuel' (slice_from s (space_loc + 1));
            Ok (slice s 0 space_loc :: rest)
          else Ok [s]
      end
  end.

(** Every call consumes at least one character, so the length of the
    query and one more call is budget enough. *)
Definition get_keywords (s : string) : result (list string) :=
  _get_keywords (S (String.length s)) s.

(** [Table.search_records].  In strict mode the caller's text is
    spliced as an SQL expression, which the model does not follow. *)
Definition search_records (fuel : nat) (d : db) (T : Table)
    (field_to_search : string) (search_for : string)
    (exclude_ids : list Z) (strict : bool) : result (list record) :=
  match _fields T !! field_to_search with
  | None => Raise InvalidRecordError
  | Some _ =>
      if strict then Unmodelled
      else
        key_words ← get_keywords search_for;
        resp ← Sqlite.select_like d (table_name T) field_to_search
                 ((fun k => String.append "%" (String.append k "%"))
                    <$> (key_words ++ [search_for])%list)
                 exclude_ids;
        mapM (get_record fuel d T) resp
  end.

(** The row of table [name] at id [i], if the table and the row
    exist. *)
Definition row_at (d : db) (name : string) (i : Z) : option row :=
  rel ← d !! name; rows rel !! i.

(** The rows [save_record] writes for a record saved through the table
    [name]: its own, then those of its subrecords, each in the table
    its dict key names. *)
Fixpoint keys (name : string) (r : record) : list (string * Z) :=
  match r with
  | Rec i _ s =>
      match i with Some i => [(name, i)] | None => [] end
      ++ match s with
         | Some subrecords =>
             flat_map (fun tr => flat_map (keys (fst tr)) (snd tr)) subrecords
         | None => []
         end
  end.

(** The rows written for the subrecords of a record. *)
Definition subkeys (subrecords : list (string * list record))
  : list (string * Z) :=
  flat_map (fun tr => flat_map (keys (fst tr)) (snd tr)) subrecords.

(** The manifest of a record whose subrecords all carry an id. *)
Definition manifest_ids (subrecords : list (string * list record))
  : manifest :=
  (fun tr : string * list record =>
     (fst tr, (fun rec => default 0 (rid rec)) <$> snd tr))
    <$> subrecords.

(** A record that [save_record] can write through table [name] and
    [get_record] read back, its subrecords included: it has an id
    other than 0 that fits 64 bits, at least one field, field values
    that are literals of the columns they are bound for, and a
    [subrecords] dict (no key twice). *)
Fixpoint storable (d : db) (name : string) (r : record) : bool :=
  match r with
  | Rec (Some i) f (Some subrecords) =>
      match d !! name with
      | Some rel =>
          negb (i =? 0) && Sqlite.int64 i
          && negb (bool_decide (f = ∅))
          && bool_decide (is_Some (Sqlite.literals (cols rel) f))
          && bool_decide (NoDup (fst <$> subrecords))
          && forallb (fun tr => forallb (storable d (fst tr)) (snd tr))
               subrecords
      | None => false
      end
  | _ => false
  end.

(** The record [r] is in the database, in table [name]: its row holds
    its field values and the ids of its subrecords, and its
    subrecords are in the database too, each in the table of its
    key. *)
#[warnings="-register-all"]
Inductive stored (d : db) : string -> record -> Prop :=
  | stored_node name i f subrecords new cs :
      row_at d name i = Some new ->
      cols <$> d !! name = Some cs ->
      dom f = dom cs -> f <> ∅ ->
      r_sub new = manifest_ids subrecords ->
      (forall k v, f !! k = Some v -> r_vals new !! k = Some v) ->
      NoDup (fst <$> subrecords) ->
      Forall (fun tr => Forall (stored d (fst tr)) (snd tr)) subrecords ->
      stored d name (Rec (Some i) f (Some subrecords)).

(** The record [r] can be handed to [save_record] of the table
    [get_table] finds for [name]. *)
Definition ready (d : db) (name : string) (r : record) : Prop :=
  (exists T, get_table d name = Ok T /\ is_valid_record d T r = Ok true)
  /\ storable d name r = true.

(** The record [r], valid and storable, is saved in full. *)
Definition saves (r : record) : Prop :=
  forall d T rel,
    is_valid_record d T r = Ok true ->
    d !! table_name T = Some rel -> _fields T = cols rel ->
    storable d (table_name T) r = true ->
    NoDup (keys (table_name T) r) ->
    exists d', save_record d T r = (d', Ok tt) /\ stored d' (table_name T) r.

(** With a budget of [n] or more, [get_record] on the id of [r],
    through any handle of table [name] that carries its columns,
    returns [r]. *)
Definition fetched (d : db) (name : string) (n : nat) (r : record) : Prop :=
  forall T, table_name T = name -> cols <$> d !! name = Some (_fields T) ->
  forall m, (n <= m)%nat -> get_record m d T (default 0 (rid r)) = Ok r.

(** [d'] differs from [d] at most in the rows [ks]: same columns in
    every table, same row everywhere else. *)
Definition frame (d d' : db) (ks : list (string * Z)) : Prop :=
  (forall name, cols <$> d' !! name = cols <$> d !! name)
  /\ (forall name j, (name, j) ∉ ks -> row_at d' name j = row_at d name j).

(** A saving function respects the frame of the record [r]. *)
Definition framed (save : db -> Table -> record -> db * result unit)
    (r : record) : Prop :=
  forall d T d' o, save d T r = (d', o) -> frame d d' (keys (table_name T) r).

(** A run of calls of [get_next_id] on one handle, one call per
    element of [ds], the database as it is at that call (the same
    database throughout when nothing is written in between): the
    handle after the last call and the outcome of each call. *)
Fixpoint allocate (fuel : nat) (ds : list db) (T : Table)
  : Table * list (result Z) :=
  match ds with
  | [] => (T, [])
  | d :: ds' =>
      let (T1, r) := get_next_id fuel d T in
      let (T2, rs) := allocate fuel ds' T1 in
      (T2, r :: rs)
  end.

(** A value is free when no row of the table of [T] carries it. *)
Definition free (d : db) (T : Table) (v : Z) : Prop :=
  forall rel, d !! table_name T = Some rel -> rows rel !! v = None.

(** The outcome of a call made on database [d], if a value, is free
    there. *)
Definition fresh_at (T : Table) (d : db) (r : result Z) : Prop :=
  match r with Ok v => free d T v | _ => True end.

(** The table of [T] exists in [d] and has a row. *)
Definition populated (T : Table) (d : db) : Prop :=
  exists rel, d !! table_name T = Some rel /\ rows rel <> ∅.

(** The values among the outcomes of a run of calls. *)
Definition returned {A} (outs : list (result A)) : list A :=
  omap (fun r => match r with Ok v => Some v | _ => None end) outs.

(** ** The search criterion in the words of the specification *)

(** [s.lower()] on ASCII text. *)
Fixpoint lower (s : string) : string :=
  match s with
  | EmptyString => EmptyString
  | String c s' => String (lower_ascii c) (lower s')
  end.

(** [s.startswith(k)]. *)
Fixpoint starts_with (k s : string) : bool :=
  match k with
  | EmptyString => true
  | String a k' =>
      match s with
      | EmptyString => false
      | String b s' => Ascii.eqb a b && starts_with k' s'
      end
  end.

(** [k in s]: [k] occurs in [s] as a substring, case and all. *)
Fixpoint contains (k s : string) : bool :=
  starts_with k s
  || match s with
     | EmptyString => false
     | String _ s' => contains k s'
     end.

(** A query without a double quote and with no white space other
    than the space character. *)
Fixpoint plain (s : string) : bool :=
  match s with
  | EmptyString => true
  | String c s' =>
      (negb (is_space c) || Ascii.eqb c " ") && negb (Ascii.eqb c dquote)
      && plain s'
  end.

(** The tokens of a query without quotes, by a scan from left to
    right: a space ends the word read so far, [cur], if there is one. *)
Fixpoint scan (cur : string) (s : string) : list string :=
  match s with
  | EmptyString => match cur with EmptyString => [] | _ => [cur] end
  | String c s' =>
      if Ascii.eqb c " " then
        match cur with
        | EmptyString => scan EmptyString s'
        | _ => cur :: scan EmptyString s'
        end
      else scan (String.append cur (String c EmptyString)) s'
  end.

Definition scan_words (s : string) : list string := scan EmptyString s.

(** The test [f LIKE "%k%"] of the relative search on a text. *)
Definition matches (k s : string) : bool :=
  Sqlite.like (String.append "%" (String.append k "%")) s.

(** ** Concrete tables used in the examples *)

Module Scenario.

(** [Pet = Table(db, "Pet", {"name": "text", "age": "integer"})] on a
    new file, and the record of Rex. *)
Definition Pet : Table :=
  MkTable "Pet" [] {[ "name" := TEXT; "age" := INTEGER ]} 0.

Definition d_pet : db :=
  {[ "Pet" := Relation {[ "name" := TEXT; "age" := INTEGER ]}
                {[ 0 := Row ∅ [] ]} ]}.

Definition rex : record :=
  Rec (Some 1) {[ "name" := VStr "Rex"; "age" := VInt 3 ]} (Some []).

Definition d_rex : db := fst (save_record d_pet Pet rex).

(** A record of [Pet] without its [age]. *)
Definition ageless : record :=
  Rec (Some 1) {[ "name" := VStr "Rex" ]} (Some []).

(** [Owner = Table(db, "Owner", {"name": "text"}, ["Pet"])] next to
    [Pet]. *)
Definition Owner : Table :=
  MkTable "Owner" ["Pet"] {[ "name" := TEXT ]} 0.

Definition d_owner : db :=
  <[ "Owner" := Relation {[ "name" := TEXT ]}
                  {[ 0 := Row ∅ [("Pet", [])] ]} ]> d_pet.

(** Ann owns Rex. *)
Definition ann : record :=
  Rec (Some 1) {[ "name" := VStr "Ann" ]} (Some [("Pet", [rex])]).

Definition d_ann : db := fst (save_record d_owner Owner ann).

(** Two pets built through two handles of [Pet] before either is
    saved: both get id 1. *)
Definition tom : record :=
  Rec (Some 1) {[ "name" := VStr "Tom"; "age" := VInt 5 ]} (Some []).

Definition bob : record :=
  Rec (Some 1) {[ "name" := VStr "Bob" ]} (Some [("Pet", [rex; tom])]).

(** [Node = Table(db, "Node", {"name": "text"}, ["Node"])]: a table
    that is its own subtable, with one saved row, and a record whose
    subrecord carries the id of its parent. *)
Definition Node : Table :=
  MkTable "Node" ["Node"] {[ "name" := TEXT ]} 0.

Definition d_node : db :=
  {[ "Node" := Relation {[ "name" := TEXT ]}
                 {[ 0 := Row ∅ [("Node", [])];
                    1 := Row {[ "name" := VStr "first" ]} [("Node", [])] ]} ]}.

Definition leaf : record :=
  Rec (Some 1) {[ "name" := VStr "inner" ]} (Some [("Node", [])]).

Definition root : record :=
  Rec (Some 1) {[ "name" := VStr "second" ]} (Some [("Node", [leaf])]).

(** The query ["Rex"] with its double quotes, a phrase of one word. *)
Definition quoted_rex : string :=
  String dquote (String.append "Rex" (String dquote EmptyString)).

End Scenario.

(** ** Basic facts *)

Lemma relation_eta (rel : relation) : Relation (cols rel) (rows rel) = rel.
Proof. by destruct rel. Qed.

Lemma bind_ok {A B} (m : result A) (k : A -> result B) (b : B) :
  m ≫= k = Ok b -> exists a, m = Ok a /\ k a = Ok b.
Proof. destruct m; simpl; try discriminate. eauto. Qed.

(** [mapM] in [result] returns only if every element does. *)
Lemma mapM_ok_Forall2 {A B} (f : A -> result B) (l : list A) (k : list B) :
  mapM f l = Ok k <-> Forall2 (fun x y => f x = Ok y) l k.
Proof.
  revert k. induction l as [|x l IH]; intros k; simpl.
  - split.
    + intros [= <-]. constructor.
    + intros H. by inversion H.
  - split.
    + intros H. apply bind_ok in H as (y & Hy & H).
      apply bind_ok in H as (k' & Hk' & [= <-]).
      constructor; [done|]. by apply IH.
    + intros H. inversion H as [|? y ? k' Hy Hk']; subst.
      rewrite Hy. simpl. apply IH in Hk'. by rewrite Hk'.
Qed.

Lemma mapM_ok_elem {A B} (f : A -> result B) (l : list A) (k : list B) x :
  mapM f l = Ok k -> x ∈ l -> is_ok (f x) = true.
Proof.
  intros H Hx. apply mapM_ok_Forall2 in H.
  induction H as [|a b l k Hab _ IH]; [by apply elem_of_nil in Hx|].
  apply elem_of_cons in Hx as [->|Hx]; [by rewrite Hab|auto].
Qed.

Lemma mapM_result_ext {A B} (f g : A -> result B) (l : list A) :
  (forall x, x ∈ l -> f x = g x) -> mapM f l = mapM g l.
Proof.
  induction l as [|x l IH]; intros H; simpl; [done|].
  rewrite (H x) by (apply elem_of_cons; by left).
  rewrite IH; [done|]. intros y Hy. apply H. apply elem_of_cons. by right.
Qed.

Lemma select_cols_ok (d : db) (T : Table) (rel : relation) :
  d !! table_name T = Some rel -> cols rel = _fields T -> _fields T <> ∅ ->
  Sqlite.select_cols d (table_name T) (_fields T) = Ok rel.
Proof.
  intros Hrel Hcols Hne. unfold Sqlite.select_cols. rewrite Hrel.
  rewrite bool_decide_eq_false_2 by done.
  rewrite bool_decide_eq_true_2; [done|].
  intros f ty Hf. rewrite Hcols. eauto.
Qed.

(** One step of [save_record], whatever the record. *)
Lemma save_record_unfold (d : db) (T : Table) (r : record) :
  save_record d T r =
  match is_valid_record d T r with
  | Ok true =>
      match r with
      | Rec (Some i) f (Some subrecords) =>
          match manifest_of subrecords with
          | Ok m =>
              match upsert d T i f m with
              | (d1, Ok _) => save_tables save_record d1 subrecords
              | (d1, e) => (d1, e)
              end
          | Raise e => (d, Raise e)
          | Unmodelled => (d, Unmodelled)
          | OutOfFuel => (d, OutOfFuel)
          end
      | _ => (d, Raise KeyError)
      end
  | Ok false => (d, Raise InvalidRecordError)
  | Raise e => (d, Raise e)
  | Unmodelled => (d, Unmodelled)
  | OutOfFuel => (d, OutOfFuel)
  end.
Proof. by destruct r. Qed.

(** ** C10: an invalid record is refused before any write *)

(** C10. For every record that [is_valid_record] rejects, [save_record]
    raises [InvalidRecordError] and returns the database it was given:
    no row of any table is inserted, updated or deleted. *)
Theorem save_record_invalid_unchanged (d : db) (T : Table) (r : record) :
  is_valid_record d T r = Ok false ->
  save_record d T r = (d, Raise InvalidRecordError).
Proof. intros H. rewrite save_record_unfold. by rewrite H. Qed.

Lemma save_record_invalid_unchanged_witness :
  is_valid_record Scenario.d_pet Scenario.Pet Scenario.ageless = Ok false
  /\ save_record Scenario.d_pet Scenario.Pet Scenario.ageless
     = (Scenario.d_pet, Raise InvalidRecordError).
Proof.
  split; [by vm_compute|].
  apply save_record_invalid_unchanged. by vm_compute.
Defined.

(** ** C9: an id without a row *)




(** ** C5: deletion does not cascade *)

Lemma get_table_ok (d : db) (name : string) (rel : relation) :
  d !! name = Some rel ->
  exists T, get_table d name = Ok T
            /\ table_name T = name /\ _fields T = cols rel /\ _max_id T = 0.
Proof.
  intros Hrel. unfold get_table, Sqlite.table_info, Sqlite.select_meta.
  rewrite Hrel. simpl. destruct (rows rel !! 0); simpl; eauto.
Qed.

Lemma get_record_S (fuel : nat) (d : db) (T : Table) (i : Z) :
  get_record (S fuel) d T i =
  resp ← Sqlite.select_row d (table_name T) (_fields T) i;
  match resp with
  | None => Raise InvalidRecordError
  | Some tup => hydrate (get_record fuel d) d tup
  end.
Proof. done. Qed.

(** A lookup of an id without a row never returns. *)
Lemma get_record_absent_not_ok (fuel : nat) (d : db) (T : Table)
    (rel : relation) (i : Z) :
  d !! table_name T = Some rel -> rows rel !! i = None ->
  is_ok (get_record fuel d T i) = false.
Proof.
  intros Hrel Hrow. destruct fuel as [|fuel]; [done|]. simpl.
  unfold Sqlite.select_row, Sqlite.select_cols. rewrite Hrel.
  repeat case_bool_decide; simpl; try done. by rewrite Hrow.
Qed.

(** A record is hydrated only if every id of its manifest is. *)
Lemma hydrate_ok_child (get : Table -> Z -> result record) (d : db)
    (i : Z) (vals : gmap string value) (m : manifest)
    (table : string) (ids : list Z) (c : Z) :
  is_ok (hydrate get d (i, vals, m)) = true ->
  (table, ids) ∈ json_loads m -> c ∈ ids ->
  is_ok (T' ← get_table d table; get T' c) = true.
Proof.
  unfold hydrate. intros Hok Hin Hc.
  destruct (mapM _ (json_loads m)) as [subs| | |] eqn:Hsubs; try done.
  pose proof (mapM_ok_elem _ _ _ _ Hsubs Hin) as Hrow. simpl in Hrow.
  destruct (mapM _ ids) as [recs| | |] eqn:Hrecs; try done.
  apply (mapM_ok_elem _ _ _ _ Hrecs Hc).
Qed.




(** ** C3: the id allocator *)

Section Allocator.

Variable d : db.

Lemma max_id_spec (rel : relation) :
  (Sqlite.max_id rel = None -> rows rel = ∅)
  /\ (forall m, Sqlite.max_id rel = Some m ->
      forall j, is_Some (rows rel !! j) -> j <= m).
Proof.
  unfold Sqlite.max_id.
  apply (map_fold_weak_ind (fun b (m : gmap Z row) =>
    (b = None -> m = ∅)
    /\ (forall mx, b = Some mx -> forall j, is_Some (m !! j) -> j <= mx))).
  - split; [done|]. intros mx [=].
  - intros i x m r Hi [IH0 IH]. split; [done|].
    intros mx [= <-] j [y Hj].
    destruct (decide (i = j)) as [->|Hne]; [destruct r; lia|].
    rewrite lookup_insert_ne in Hj by done.
    destruct r as [m'|].
    + specialize (IH m' eq_refl j (ex_intro _ y Hj)). lia.
    + by rewrite (IH0 eq_refl) in Hj.
Qed.

(** One call: the cache never moves back, and a returned value lies
    above the cache as it was, is the new cache, and is free. *)
Lemma get_next_id_spec (fuel : nat) (T T' : Table) (r : result Z) :
  get_next_id fuel d T = (T', r) ->
  table_name T' = table_name T
  /\ _max_id T <= _max_id T'
  /\ (forall v, r = Ok v -> _max_id T < v /\ v = _max_id T' /\ free d T v).
Proof.
  revert T. induction fuel as [|fuel IH]; intros T; simpl.
  { intros [= <- <-]. split; [done|]. split; [lia|done]. }
  unfold Sqlite.select_max, Sqlite.select_id.
  destruct (d !! table_name T) as [rel|] eqn:Hrel;
    [|intros [= <- <-]; split; [done|]; split; [lia|done]].
  destruct (Sqlite.max_id rel) as [m|] eqn:Hmax;
    [|intros [= <- <-]; split; [done|]; split; [lia|done]].
  pose proof (proj2 (max_id_spec rel) m Hmax) as Hle.
  destruct (m <? _max_id T) eqn:Hlt.
  - apply Z.ltb_lt in Hlt.
    destruct (rows rel !! _max_id T) as [x|] eqn:Hrow; simpl.
    + specialize (Hle (_max_id T) (ex_intro _ x Hrow)). lia.
    + intros [= <- <-]. simpl. split; [done|]. split; [lia|].
      intros v [= <-]. split; [lia|]. split; [done|].
      intros rel' Hrel'. rewrite Hrel in Hrel'. injection Hrel' as <-.
      destruct (rows rel !! (_max_id T + 1)) as [y|] eqn:Hy; [|done].
      specialize (Hle _ (ex_intro _ y Hy)). lia.
  - apply Z.ltb_ge in Hlt. intros [= <- <-]. simpl.
    split; [done|]. split; [lia|].
    intros v [= <-]. split; [lia|]. split; [done|].
    intros rel' Hrel'. rewrite Hrel in Hrel'. injection Hrel' as <-.
    destruct (rows rel !! (m + 1)) as [y|] eqn:Hy; [|done].
    specialize (Hle _ (ex_intro _ y Hy)). lia.
Qed.

(** A call moves only the cache of the handle. *)
Lemma get_next_id_handle (fuel : nat) (T T' : Table) (r : result Z) :
  get_next_id fuel d T = (T', r) ->
  T' = MkTable (table_name T) (_subtables T) (_fields T) (_max_id T').
Proof.
  revert T. induction fuel as [|fuel IH]; intros T; simpl.
  { intros [= <- <-]. by destruct T. }
  destruct (Sqlite.select_max d (table_name T)) as [[[m|]|]| | |];
    try (intros [= <- <-]; by destruct T).
  destruct (m <? _max_id T); [|intros [= <- <-]; by destruct T].
  destruct (Sqlite.select_id d (table_name T) (_max_id T)) as [[x|]| | |];
    try (intros [= <- <-]; by destruct T).
  intros H. by apply IH in H.
Qed.

(** With a table that has a row, one unit of budget is enough for a
    call to return. *)
Lemma get_next_id_returns (fuel : nat) (T : Table) (rel : relation) :
  d !! table_name T = Some rel -> rows rel <> ∅ ->
  is_ok (snd (get_next_id (S fuel) d T)) = true.
Proof.
  intros Hrel Hne. simpl. unfold Sqlite.select_max, Sqlite.select_id.
  rewrite Hrel.
  destruct (Sqlite.max_id rel) as [m|] eqn:Hmax;
    [|by apply max_id_spec in Hmax].
  pose proof (proj2 (max_id_spec rel) m Hmax) as Hle.
  destruct (m <? _max_id T) eqn:Hlt; [|done].
  apply Z.ltb_lt in Hlt.
  destruct (rows rel !! _max_id T) as [x|] eqn:Hrow; simpl; [|done].
  specialize (Hle (_max_id T) (ex_intro _ x Hrow)). lia.
Qed.

End Allocator.

(** A run of calls: every returned value is free in the database of
    its call and lies above the cache the run started from, and the
    values increase strictly. *)
Lemma allocate_spec (fuel : nat) (ds : list db) (T T' : Table)
    (outs : list (result Z)) :
  allocate fuel ds T = (T', outs) ->
  table_name T' = table_name T
  /\ _max_id T <= _max_id T'
  /\ Forall2 (fresh_at T) ds outs
  /\ Forall (fun v => _max_id T < v) (returned outs)
  /\ StronglySorted Z.lt (returned outs).
Proof.
  revert T T' outs. induction ds as [|d ds IH]; intros T T' outs; simpl.
  { intros [= <- <-]. split; [done|]. split; [lia|]. split; [constructor|].
    split; constructor. }
  destruct (get_next_id fuel d T) as [T1 r] eqn:Hcall.
  destruct (allocate fuel ds T1) as [T2 rs] eqn:Hrun.
  intros [= <- <-].
  apply get_next_id_spec in Hcall as (Hname1 & Hle1 & Hval).
  apply IH in Hrun as (Hname2 & Hle2 & Hfresh & Hall & Hsorted).
  assert (Hall' : Forall (fun v => _max_id T < v) (returned rs)).
  { eapply Forall_impl; [exact Hall|]. intros v Hv. simpl in Hv. lia. }
  split; [congruence|]. split; [lia|]. split; [|split].
  - constructor.
    + destruct r as [v| | |]; try done. by destruct (Hval v eq_refl) as (_ & _ & ?).
    + eapply Forall2_impl; [exact Hfresh|]. intros d' [v| | |]; try done.
      unfold fresh_at, free. by rewrite Hname1.
  - destruct r as [v| | |]; try done.
    destruct (Hval v eq_refl) as (Hv & _ & _). by constructor.
  - destruct r as [v| | |]; try done.
    destruct (Hval v eq_refl) as (_ & Heq & _).
    change (StronglySorted Z.lt (v :: returned rs)). constructor; [done|].
    eapply Forall_impl; [exact Hall|]. intros w Hw. simpl in Hw. lia.
Qed.

Lemma allocate_returns (fuel : nat) (ds : list db) (T : Table) :
  Forall (populated T) ds ->
  Forall (fun r => is_ok r = true) (snd (allocate (S fuel) ds T)).
Proof.
  intros Hds. revert T Hds.
  induction ds as [|d ds IH]; intros T Hds; [constructor|].
  inversion Hds as [|? ? (rel & Hrel & Hne) Hds']; subst.
  cbn [allocate].
  pose proof (get_next_id_returns d fuel T rel Hrel Hne) as Hok.
  destruct (get_next_id (S fuel) d T) as [T1 r] eqn:Hcall.
  apply get_next_id_spec in Hcall as (Hname1 & _).
  specialize (IH T1).
  destruct (allocate (S fuel) ds T1) as [T2 rs]. simpl in *.
  constructor; [done|]. apply IH.
  eapply Forall_impl; [exact Hds'|]. intros d' Hd'. unfold populated.
  by rewrite Hname1.
Qed.

Lemma StronglySorted_lt_lookup (l : list Z) (j k : nat) (a b : Z) :
  StronglySorted Z.lt l -> l !! j = Some a -> l !! k = Some b ->
  (j < k)%nat -> a < b.
Proof.
  intros Hs. revert j k. induction Hs as [|x l Hs IH Hall]; intros j k Ha Hb Hjk.
  { by rewrite lookup_nil in Ha. }
  destruct k as [|k]; [lia|]. simpl in Hb.
  destruct j as [|j]; simpl in Ha.
  - injection Ha as <-. rewrite Forall_forall in Hall. apply Hall.
    by eapply list_elem_of_lookup_2.
  - eapply IH; eauto. lia.
Qed.

Lemma returned_all_ok {A} (outs : list (result A)) :
  Forall (fun r => is_ok r = true) outs ->
  List.length (returned outs) = List.length outs.
Proof.
  induction 1 as [|r rs Hr _ IH]; [done|].
  destruct r; try done. cbn. f_equal. exact IH.
Qed.

(** C3. For every run of [get_next_id] calls on one handle, whatever
    the database is at each call, and so when nothing is saved
    between the calls: no returned value is the id of a row of the
    table at the time of its call, no value is returned twice, and the
    values never decrease (they increase strictly).  When the table
    has a row at each call, as every table has from its creation on,
    every call of the run returns a value. *)
Theorem get_next_id_fresh_distinct_monotone
    (fuel : nat) (ds : list db) (T : Table) :
  let outs := snd (allocate fuel ds T) in
  Forall2 (fresh_at T) ds outs
  /\ NoDup (returned outs)
  /\ (forall j k a b, returned outs !! j = Some a -> returned outs !! k = Some b ->
        (j <= k)%nat -> a <= b)
  /\ ((0 < fuel)%nat -> Forall (populated T) ds ->
      List.length (returned outs) = List.length ds).
Proof.
  intros outs. subst outs.
  destruct (allocate fuel ds T) as [T' outs] eqn:Hrun. simpl.
  pose proof (allocate_spec fuel ds T T' outs Hrun)
    as (_ & _ & Hfresh & _ & Hsorted).
  split; [done|]. split; [|split].
  - clear -Hsorted. induction Hsorted as [|x l Hs IH Hx]; constructor; [|done].
    intros Hin. rewrite Forall_forall in Hx. specialize (Hx x Hin). lia.
  - intros j k a b Ha Hb Hjk.
    destruct (decide (j = k)) as [->|Hne].
    + rewrite Ha in Hb. injection Hb as <-. lia.
    + pose proof (StronglySorted_lt_lookup _ j k a b Hsorted Ha Hb). lia.
  - intros Hfuel Hds. destruct fuel as [|fuel]; [lia|].
    pose proof (allocate_returns fuel ds T Hds) as Hok.
    rewrite Hrun in Hok. simpl in Hok.
    rewrite (returned_all_ok outs Hok).
    symmetry. by eapply Forall2_length.
Qed.

Lemma get_next_id_fresh_distinct_monotone_witness :
  returned (snd (allocate 1 (replicate 3 Scenario.d_pet) Scenario.Pet))
  = [1; 2; 3]
  /\ List.length
       (returned (snd (allocate 1 (replicate 3 Scenario.d_pet) Scenario.Pet)))
     = 3%nat.
Proof.
  split; [by vm_compute|].
  refine (proj2 (proj2 (proj2 (get_next_id_fresh_distinct_monotone 1
    (replicate 3 Scenario.d_pet) Scenario.Pet))) _ _); [lia|].
  repeat constructor; (exists (Relation {[ "name" := TEXT; "age" := INTEGER ]}
                                 {[ 0 := Row ∅ [] ]}));
    (split; [by vm_compute|]);
    intros H; by apply (f_equal (fun m : gmap Z row => m !! 0)) in H.
Defined.

(** ** C4: what [fetchall] returns *)

Lemma mapM_fmap {A B C} (f : B -> result C) (g : A -> B) (l : list A) :
  mapM f (g <$> l) = mapM (fun x => f (g x)) l.
Proof.
  induction l as [|x l IH]; [done|].
  change (mapM f (g <$> x :: l))
    with (y ← f (g x); k ← mapM f (g <$> l); mret (y :: k)).
  by rewrite IH.
Qed.

Lemma hydrate_rid (get : Table -> Z -> result record) (d : db)
    (tup : Sqlite.tuple) (rec : record) :
  hydrate get d tup = Ok rec -> rid rec = Some (fst (fst tup)).
Proof.
  destruct tup as [[i vals] m]. unfold hydrate. intros H.
  apply bind_ok in H as (subs & _ & [= <-]). done.
Qed.

Lemma get_record_rid (fuel : nat) (d : db) (T : Table) (i : Z) (rec : record) :
  get_record fuel d T i = Ok rec -> rid rec = Some i.
Proof.
  destruct fuel as [|fuel]; [done|]. rewrite get_record_S. intros H.
  apply bind_ok in H as ([tup|] & Hsel & H); [|done].
  apply hydrate_rid in H. rewrite H. f_equal.
  unfold Sqlite.select_row in Hsel.
  apply bind_ok in Hsel as (rel & _ & [= Hsel]).
  destruct (rows rel !! i); [|done]. by injection Hsel as <-.
Qed.

Lemma get_record_row (fuel : nat) (d : db) (T : Table) (rel : relation)
    (i : Z) (r : row) :
  d !! table_name T = Some rel -> cols rel = _fields T -> _fields T <> ∅ ->
  rows rel !! i = Some r ->
  get_record (S fuel) d T i
  = hydrate (get_record fuel d) d (Sqlite.to_tuple (_fields T) i r).
Proof.
  intros Hrel Hcols Hne Hrow. rewrite get_record_S. unfold Sqlite.select_row.
  rewrite (select_cols_ok d T rel) by done. simpl. by rewrite Hrow.
Qed.




(** ** C8: [create_record] without the [subrecords] argument *)




(** ** What a save leaves alone *)

(** Induction on records through the lists of their subrecords. *)
Lemma record_ind' (P : record -> Prop) :
  (forall i f, P (Rec i f None)) ->
  (forall i f subs,
     Forall (fun tr => Forall P (snd tr)) subs -> P (Rec i f (Some subs))) ->
  forall r, P r.
Proof.
  intros Hnone Hsome.
  refine (fix IH (r : record) : P r :=
    match r with
    | Rec i f None => Hnone i f
    | Rec i f (Some subs) =>
        Hsome i f subs
          ((fix tables (l : list (string * list record))
              : Forall (fun tr => Forall P (snd tr)) l :=
              match l with
              | [] => @ListDef.Forall_nil _ _
              | tr :: l' =>
                  @ListDef.Forall_cons _ _ tr l'
                    ((fix each (rs : list record) : Forall P rs :=
                        match rs with
                        | [] => @ListDef.Forall_nil _ _
                        | r' :: rs' => @ListDef.Forall_cons _ _ r' rs' (IH r') (each rs')
                        end) (snd tr))
                    (tables l')
              end) subs)
    end).
Qed.

Lemma get_table_name (d : db) (name : string) (T : Table) :
  get_table d name = Ok T -> table_name T = name.
Proof.
  unfold get_table, Sqlite.table_info, Sqlite.select_meta.
  destruct (d !! name) as [rel|]; [|done]. simpl.
  destruct (rows rel !! 0); by intros [= <-].
Qed.

Lemma row_at_insert (d : db) (name name' : string) (rel : relation)
    (cs : gmap string ftype) (rs : gmap Z row) (i : Z) :
  d !! name = Some rel ->
  (name' <> name \/ rs !! i = rows rel !! i) ->
  row_at (<[name := Relation cs rs]> d) name' i = row_at d name' i.
Proof.
  intros Hrel H. unfold row_at.
  destruct (decide (name' = name)) as [->|Hne].
  - rewrite lookup_insert_eq, Hrel. simpl. by destruct H.
  - by rewrite lookup_insert_ne.
Qed.

Lemma cols_insert (d : db) (name name' : string) (rel : relation)
    (rs : gmap Z row) :
  d !! name = Some rel ->
  cols <$> (<[name := Relation (cols rel) rs]> d) !! name' = cols <$> d !! name'.
Proof.
  intros Hrel. destruct (decide (name' = name)) as [->|Hne].
  - by rewrite lookup_insert_eq, Hrel.
  - by rewrite lookup_insert_ne.
Qed.

(** The write of one record touches one row and no column. *)
Lemma upsert_frame (d d1 : db) (T : Table) (i : Z) (f : gmap string value)
    (m : manifest) (o : result unit) :
  upsert d T i f m = (d1, o) ->
  (forall name, cols <$> d1 !! name = cols <$> d !! name)
  /\ (forall name j, (name, j) <> (table_name T, i) ->
      row_at d1 name j = row_at d name j).
Proof.
  unfold upsert, Sqlite.select_id, Sqlite.update, Sqlite.insert.
  destruct (d !! table_name T) as [rel|] eqn:Hrel; [|by intros [= <- <-]].
  destruct (rows rel !! i) as [old|] eqn:Hrow; simpl; rewrite ?Hrel, ?Hrow.
  - destruct (Sqlite.literals _ _); [|by intros [= <- <-]].
    intros [= <- <-]. split; [intros; by apply cols_insert|].
    intros name j Hne. apply (row_at_insert _ _ _ rel); [done|].
    destruct (decide (name = table_name T)) as [->|]; [right|by left].
    rewrite lookup_insert_ne; [done|congruence].
  - destruct (bool_decide _); [by intros [= <- <-]|].
    destruct (negb _); [by intros [= <- <-]|].
    destruct (Sqlite.literals _ _); [|by intros [= <- <-]].
    intros [= <- <-]. split; [intros; by apply cols_insert|].
    intros name j Hne. apply (row_at_insert _ _ _ rel); [done|].
    destruct (decide (name = table_name T)) as [->|]; [right|by left].
    rewrite lookup_insert_ne; [done|congruence].
Qed.

Lemma frame_refl (d : db) (ks : list (string * Z)) : frame d d ks.
Proof. by split. Qed.

Lemma frame_app (d1 d2 d3 : db) (ks1 ks2 : list (string * Z)) :
  frame d1 d2 ks1 -> frame d2 d3 ks2 -> frame d1 d3 (ks1 ++ ks2).
Proof.
  intros [Hc1 Hr1] [Hc2 Hr2]. split.
  - intros name. by rewrite Hc2.
  - intros name j Hj. rewrite Hr2, Hr1; [done| |]; intros Hin; apply Hj;
      apply elem_of_app; auto.
Qed.

Lemma frame_app_l (d1 d2 : db) (ks1 ks2 : list (string * Z)) :
  frame d1 d2 ks1 -> frame d1 d2 (ks1 ++ ks2).
Proof.
  intros H. apply (frame_app d1 d2 d2); [done|apply frame_refl].
Qed.

Section SaveFrame.

Variable save : db -> Table -> record -> db * result unit.

Lemma save_each_frame (table : string) (rs : list record) :
  Forall (framed save) rs ->
  forall d d' o, save_each save table d rs = (d', o) ->
  frame d d' (flat_map (keys table) rs).
Proof.
  induction 1 as [|r rs Hr _ IH]; intros d d' o; simpl.
  { intros [= <- <-]. apply frame_refl. }
  destruct (get_table d table) as [T'| | |] eqn:HT;
    try (intros [= <- <-]; apply frame_refl).
  apply get_table_name in HT.
  destruct (save d T' r) as [d1 o1] eqn:Hsave.
  apply Hr in Hsave. rewrite HT in Hsave.
  destruct o1 as [[]| | |];
    try (intros [= <- <-]; by apply frame_app_l).
  intros Hrest. apply IH in Hrest. by eapply frame_app.
Qed.

Lemma save_tables_frame (subs : list (string * list record)) :
  Forall (fun tr => Forall (framed save) (snd tr)) subs ->
  forall d d' o, save_tables save d subs = (d', o) ->
  frame d d' (flat_map (fun tr => flat_map (keys (fst tr)) (snd tr)) subs).
Proof.
  induction 1 as [|[table rs] subs Hrs _ IH]; intros d d' o; simpl.
  { intros [= <- <-]. apply frame_refl. }
  destruct (save_each save table d rs) as [d1 o1] eqn:Heach.
  apply save_each_frame in Heach; [|done].
  destruct o1 as [[]| | |];
    try (intros [= <- <-]; by apply frame_app_l).
  intros Hrest. apply IH in Hrest. by eapply frame_app.
Qed.

End SaveFrame.

Lemma save_record_frame (r : record) : framed save_record r.
Proof.
  induction r as [i f|i f subs IH] using record_ind'; intros d T d' o;
    rewrite save_record_unfold.
  - destruct (is_valid_record d T _) as [[]| | |];
      try (intros [= <- <-]; apply frame_refl).
    destruct i; intros [= <- <-]; apply frame_refl.
  - destruct (is_valid_record d T _) as [[]| | |];
      try (intros [= <- <-]; apply frame_refl).
    destruct i as [i|]; [|intros [= <- <-]; apply frame_refl].
    destruct (manifest_of subs) as [m| | |];
      try (intros [= <- <-]; apply frame_refl).
    destruct (upsert d T i f m) as [d1 o1] eqn:Hup.
    apply upsert_frame in Hup as [Hc Hr].
    assert (Hroot : frame d d1 [(table_name T, i)]).
    { split; [done|]. intros name j Hj. apply Hr. intros Heq. apply Hj.
      rewrite Heq. apply elem_of_cons. by left. }
    change (keys (table_name T) (Rec (Some i) f (Some subs)))
      with ([(table_name T, i)]
            ++ flat_map (fun tr => flat_map (keys (fst tr)) (snd tr)) subs)%list.
    destruct o1 as [[]| | |];
      try (intros [= <- <-]; by apply frame_app_l).
    intros Hrest. apply save_tables_frame in Hrest; [|done].
    by eapply frame_app.
Qed.

(** ** C2: the row with id 0 *)




(** ** What a valid record looks like *)

Lemma valid_each_inv (valid : Table -> record -> result bool) (d : db)
    (table : string) (rs : list record) :
  valid_each valid d table rs = Ok true ->
  Forall (fun rec => exists T', get_table d table = Ok T'
                                /\ valid T' rec = Ok true) rs.
Proof.
  induction rs as [|rec rs IH]; simpl; [constructor|].
  destruct (get_table d table) as [T'| | |]; try done. simpl.
  destruct (valid T' rec) as [[]| | |] eqn:Hrec; try done. simpl.
  intros H. constructor; [eauto|auto].
Qed.

Lemma valid_tables_inv (valid : Table -> record -> result bool) (d : db)
    (T : Table) (subs : list (string * list record)) :
  valid_tables valid d T subs = Ok true ->
  Forall (fun tr => fst tr ∈ _subtables T
                    /\ valid_each valid d (fst tr) (snd tr) = Ok true) subs.
Proof.
  induction subs as [|[table rs] subs IH]; simpl; [constructor|].
  case_bool_decide as Hin; [|done]. simpl.
  destruct (valid_each valid d table rs) as [[]| | |] eqn:Hrs; try done.
  simpl. intros Hrest. constructor; [done|auto].
Qed.

Lemma is_valid_record_inv (d : db) (T : Table) (r : record) :
  is_valid_record d T r = Ok true ->
  exists i subs,
    r = Rec (Some i) (rfields r) (Some subs)
    /\ size (rfields r) = size (_fields T)
    /\ map_Forall (fun field ty => field_ok r field ty = true) (_fields T)
    /\ valid_tables (is_valid_record d) d T subs = Ok true.
Proof.
  destruct r as [i f s]. cbn [is_valid_record].
  destruct (negb _) eqn:Hlen; [done|].
  destruct i as [i|]; [|done]. destruct s as [subs|]; [|done].
  destruct (negb (_ =? _)%nat); [done|].
  case_bool_decide as Hall; [|done]. cbn [negb].
  intros Hsubs. exists i, subs. split; [done|]. split; [|split; [|done]].
  - apply negb_false_iff, Z.eqb_eq in Hlen. unfold record_len in Hlen.
    cbn in Hlen. cbn [rfields]. lia.
  - intros field ty Hf. specialize (Hall field ty Hf). simpl in Hall.
    by destruct (field_ok _ _ _).
Qed.

Lemma is_valid_record_rid (d : db) (T : Table) (r : record) :
  is_valid_record d T r = Ok true -> is_Some (rid r).
Proof.
  intros H. apply is_valid_record_inv in H as (i & subs & -> & _). by eexists.
Qed.

Lemma ids_of_ok (rs : list record) :
  Forall (fun rec => is_Some (rid rec)) rs ->
  ids_of rs = Ok ((fun rec => default 0 (rid rec)) <$> rs).
Proof.
  induction 1 as [|rec rs [i Hi] _ IH]; [done|].
  unfold ids_of in *. cbn. rewrite Hi. cbn. by rewrite IH.
Qed.

Lemma manifest_of_ok (subs : list (string * list record)) :
  Forall (fun tr => Forall (fun rec => is_Some (rid rec)) (snd tr)) subs ->
  manifest_of subs = Ok (manifest_ids subs).
Proof.
  induction 1 as [|[table rs] subs Hrs _ IH]; [done|].
  unfold manifest_of in *. cbn. rewrite (ids_of_ok rs Hrs). cbn.
  by rewrite IH.
Qed.

Lemma valid_manifest (d : db) (T : Table)
    (subs : list (string * list record)) :
  valid_tables (is_valid_record d) d T subs = Ok true ->
  manifest_of subs = Ok (manifest_ids subs).
Proof.
  intros H. apply manifest_of_ok. apply valid_tables_inv in H.
  eapply Forall_impl; [exact H|]. intros [table rs] [_ Hrs]. simpl in *.
  apply valid_each_inv in Hrs. eapply Forall_impl; [exact Hrs|].
  intros rec (T' & _ & Hrec). by eapply is_valid_record_rid.
Qed.

(** ** The write of one record *)

Lemma upsert_ok (d : db) (T : Table) (rel : relation) (i : Z)
    (f : gmap string value) (m : manifest) :
  d !! table_name T = Some rel ->
  is_Some (Sqlite.literals (cols rel) f) ->
  is_Some (rows rel !! i) \/ (f <> ∅ /\ Sqlite.int64 i = true) ->
  exists new,
    upsert d T i f m
    = (<[table_name T := Relation (cols rel) (<[i := new]> (rows rel))]> d,
       Ok tt)
    /\ r_sub new = m
    /\ (forall k v, f !! k = Some v -> r_vals new !! k = Some v).
Proof.
  intros Hrel [stored Hlit] Hrow.
  assert (stored = f) as ->.
  { unfold Sqlite.literals in Hlit. destruct (bool_decide _); congruence. }
  unfold upsert, Sqlite.select_id, Sqlite.update, Sqlite.insert.
  rewrite Hrel. destruct (rows rel !! i) as [old|] eqn:Hold; simpl.
  - rewrite Hlit. eexists. split; [done|]. split; [done|].
    intros k v Hk. simpl. by apply lookup_union_Some_l.
  - destruct Hrow as [[? [=]]|[Hne Hint]].
    rewrite Hlit, Hint. rewrite bool_decide_eq_false_2 by done.
    simpl. eexists. split; [done|]. by split.
Qed.

(** ** C7: saving a record whose id has a row *)

Lemma keys_unfold (name : string) (i : Z) (f : gmap string value)
    (subs : list (string * list record)) :
  keys name (Rec (Some i) f (Some subs)) = (name, i) :: subkeys subs.
Proof. done. Qed.




(** ** C1: build, save, fetch *)

Lemma dict_set_fresh {A} (k : string) (v : A) (d : list (string * A)) :
  k ∉ fst <$> d -> dict_set k v d = d ++ [(k, v)].
Proof.
  induction d as [|[k' v'] d IH]; intros Hk; simpl; [done|].
  rewrite fmap_cons in Hk. apply not_elem_of_cons in Hk as [Hne Hk].
  destruct (String.eqb_spec k k') as [->|_]; [done|]. by rewrite IH.
Qed.

Lemma dict_set_fold (m acc : manifest) :
  NoDup (fst <$> acc ++ m) ->
  fold_left (fun d kv => dict_set (fst kv) (snd kv) d) m acc = acc ++ m.
Proof.
  revert acc. induction m as [|[k v] m IH]; intros acc Hnd; simpl.
  - by rewrite app_nil_r.
  - rewrite dict_set_fresh.
    + rewrite IH; [by rewrite <- app_assoc|]. by rewrite <- app_assoc.
    + rewrite fmap_app in Hnd. apply NoDup_app in Hnd as (_ & Hdisj & _).
      intros Hin. apply (Hdisj k Hin). rewrite fmap_cons.
      apply elem_of_cons. by left.
Qed.

(** A manifest without a repeated table name is read back as written. *)
Lemma json_loads_nodup (m : manifest) :
  NoDup (fst <$> m) -> json_loads m = m.
Proof. intros Hnd. unfold json_loads. by rewrite dict_set_fold. Qed.

(** What [get_table] returns depends on the columns of the table and
    on its row 0 only. *)
Lemma get_table_frame (d d' : db) (ks : list (string * Z)) :
  frame d d' ks -> (forall name, (name, 0) ∉ ks) ->
  forall name, get_table d' name = get_table d name.
Proof.
  intros [Hcols Hrows] Hzero name.
  specialize (Hcols name). specialize (Hrows name 0 (Hzero name)).
  unfold get_table, Sqlite.table_info, Sqlite.select_meta, row_at in *.
  destruct (d' !! name) as [rel'|], (d !! name) as [rel|]; simpl in *;
    try done.
  injection Hcols as Hcols. rewrite Hrows, Hcols. done.
Qed.

Section SameSchema.

Variables d d' : db.
Hypothesis Hschema : forall name, get_table d' name = get_table d name.

Lemma valid_each_schema (f g : Table -> record -> result bool)
    (table : string) (rs : list record) :
  Forall (fun r => forall T, f T r = g T r) rs ->
  valid_each f d' table rs = valid_each g d table rs.
Proof.
  induction 1 as [|r rs Hr _ IH]; simpl; [done|].
  rewrite Hschema. destruct (get_table d table) as [T'| | |]; try done.
  simpl. rewrite Hr. destruct (g T' r) as [[]| | |]; try done.
Qed.

Lemma valid_tables_schema (f g : Table -> record -> result bool)
    (T : Table) (subs : list (string * list record)) :
  Forall (fun tr => Forall (fun r => forall T, f T r = g T r) (snd tr)) subs ->
  valid_tables f d' T subs = valid_tables g d T subs.
Proof.
  induction 1 as [|[table rs] subs Hrs _ IH]; simpl; [done|].
  destruct (negb _); [done|].
  rewrite (valid_each_schema f g table rs Hrs).
  destruct (valid_each g d table rs) as [[]| | |]; try done.
Qed.

Lemma is_valid_record_schema (r : record) (T : Table) :
  is_valid_record d' T r = is_valid_record d T r.
Proof.
  revert T. induction r as [i f|i f subs IH] using record_ind'; intros T.
  - cbn [is_valid_record]. by destruct (negb _), i.
  - cbn [is_valid_record]. destruct (negb _); [done|].
    destruct i; [|done]. destruct (negb _); [done|].
    destruct (negb _); [done|]. by apply valid_tables_schema.
Qed.

End SameSchema.

Lemma storable_cols (d d' : db) :
  (forall name, cols <$> d' !! name = cols <$> d !! name) ->
  forall r name, storable d' name r = storable d name r.
Proof.
  intros Hcols.
  induction r as [i f|i f subs IH] using record_ind'; intros name.
  { by destruct i. }
  cbn [storable]. destruct i as [i|]; [|done].
  specialize (Hcols name) as Hname.
  destruct (d' !! name) as [rel'|], (d !! name) as [rel|]; simpl in Hname;
    try done.
  injection Hname as ->. f_equal.
  induction IH as [|[table rs] subs Hrs _ IHsubs]; [done|].
  simpl. f_equal; [|done]. clear IHsubs. simpl in Hrs.
  induction Hrs as [|r rs' Hr _ IHrs]; [done|].
  simpl. by rewrite Hr, IHrs.
Qed.

Lemma ready_frame (d d' : db) (ks : list (string * Z)) (name : string)
    (r : record) :
  frame d d' ks -> (forall n, (n, 0) ∉ ks) -> ready d name r -> ready d' name r.
Proof.
  intros Hframe Hzero [(T & HT & Hvalid) Hst].
  pose proof (get_table_frame d d' ks Hframe Hzero) as Hschema.
  split.
  - exists T. rewrite Hschema. split; [done|].
    by rewrite (is_valid_record_schema d d' Hschema).
  - rewrite (storable_cols d d'); [done|]. apply Hframe.
Qed.

(** A storable record has no record with id 0 in its tree. *)
Lemma storable_no_zero (d : db) (r : record) :
  forall name, storable d name r = true -> forall n, (n, 0) ∉ keys name r.
Proof.
  induction r as [i f|i f subs IH] using record_ind'; intros name Hst n.
  { by destruct i. }
  cbn [storable] in Hst. destruct i as [i|]; [|done].
  destruct (d !! name) as [rel|]; [|done].
  repeat (apply andb_prop in Hst as [Hst ?]).
  rewrite keys_unfold. apply not_elem_of_cons. split.
  { intros Heq. simplify_eq. }
  unfold subkeys.
  match goal with H : forallb _ subs = true |- _ => rename H into Hsubs end.
  clear -IH Hsubs. revert Hsubs.
  induction IH as [|[table rs] subs Hrs _ IHsubs]; simpl; intros Hsubs.
  { apply not_elem_of_nil. }
  apply andb_prop in Hsubs as [Hrs' Hsubs].
  apply not_elem_of_app. split; [|by apply IHsubs].
  clear IHsubs Hsubs. simpl in Hrs. revert Hrs'.
  induction Hrs as [|r rs' Hr _ IHrs]; simpl; intros Hrs'.
  { apply not_elem_of_nil. }
  apply andb_prop in Hrs' as [Hr' Hrs'].
  apply not_elem_of_app. split; [by apply Hr|by apply IHrs].
Qed.

(** A record in the database stays there through writes to other rows. *)
Lemma stored_frame (d d' : db) (ks : list (string * Z)) (r : record) :
  frame d d' ks ->
  forall name, stored d name r ->
  (forall k, k ∈ keys name r -> k ∉ ks) -> stored d' name r.
Proof.
  intros [Hcols Hrows].
  induction r as [i f|i f subs IH] using record_ind'; intros name Hst Hdisj.
  { inversion Hst. }
  inversion Hst as [? i' ? ? new cs Hrow Hcs Hdom Hne Hsub Hvals Hnd Hall];
    subst.
  rewrite keys_unfold in Hdisj.
  econstructor; try done.
  - rewrite Hrows; [done|]. apply Hdisj. apply elem_of_cons. by left.
  - by rewrite Hcols.
  - assert (Hsubkeys : forall k, k ∈ subkeys subs -> k ∉ ks).
    { intros k Hk. apply Hdisj. apply elem_of_cons. by right. }
    clear -IH Hall Hsubkeys. unfold subkeys in Hsubkeys.
    induction IH as [|[table rs] subs Hrs _ IHsubs]; [constructor|].
    inversion Hall as [|? ? Hrs' Hall']; subst. simpl in *.
    constructor.
    + assert (Hhere : forall k, k ∈ flat_map (keys table) rs -> k ∉ ks).
      { intros k Hk. apply Hsubkeys. apply elem_of_app. by left. }
      clear -Hrs Hrs' Hhere.
      induction Hrs as [|r rs' Hr _ IHrs]; [constructor|].
      inversion Hrs' as [|? ? Hr' Hrs'']; subst. simpl in Hhere.
      constructor.
      * apply Hr; [done|]. intros k Hk. apply Hhere. apply elem_of_app.
        by left.
      * apply IHrs; [done|]. intros k Hk. apply Hhere. apply elem_of_app.
        by right.
    + apply IHsubs; [done|]. intros k Hk. apply Hsubkeys. apply elem_of_app.
      by right.
Qed.

Lemma get_table_inv (d : db) (name : string) (T : Table) :
  get_table d name = Ok T ->
  exists rel, d !! name = Some rel /\ table_name T = name
              /\ _fields T = cols rel.
Proof.
  unfold get_table, Sqlite.table_info, Sqlite.select_meta.
  destruct (d !! name) as [rel|]; [|done]. simpl.
  destruct (rows rel !! 0); intros [= <-]; eauto.
Qed.

Lemma framed_all (rs : list record) : Forall (framed save_record) rs.
Proof. apply Forall_forall. intros r _. apply save_record_frame. Qed.

Lemma framed_all_tables (subs : list (string * list record)) :
  Forall (fun tr : string * list record =>
            Forall (framed save_record) (snd tr)) subs.
Proof. apply Forall_forall. intros tr _. apply framed_all. Qed.

Lemma ready_no_zero (d : db) (table : string) (rs : list record) :
  Forall (ready d table) rs ->
  forall n, (n, 0) ∉ flat_map (keys table) rs.
Proof.
  induction 1 as [|r rs [_ Hst] _ IH]; intros n; simpl.
  - apply not_elem_of_nil.
  - apply not_elem_of_app. split; [by eapply storable_no_zero|done].
Qed.

Lemma save_each_stores (table : string) (rs : list record) :
  Forall saves rs ->
  forall d, Forall (ready d table) rs -> NoDup (flat_map (keys table) rs) ->
  exists d', save_each save_record table d rs = (d', Ok tt)
             /\ Forall (stored d' table) rs.
Proof.
  induction 1 as [|r rs Hr _ IH]; intros d Hready Hnd; simpl.
  { exists d. by split. }
  inversion Hready as [|? ? [(T & HT & Hvalid) Hst] Hready']; subst.
  simpl in Hnd. apply NoDup_app in Hnd as (Hnd1 & Hdisj & Hnd2).
  destruct (get_table_inv _ _ _ HT) as (rel & Hrel & Hname & Hfields).
  rewrite HT.
  destruct (Hr d T rel) as (d1 & Hsave & Hstored); rewrite ?Hname; try done.
  rewrite Hsave.
  pose proof (save_record_frame _ _ _ _ _ Hsave) as Hframe1.
  rewrite Hname in Hframe1, Hstored.
  destruct (IH d1) as (d' & Heach & Hrest); [|done|].
  { eapply Forall_impl; [exact Hready'|]. intros r' Hr'.
    eapply ready_frame; [exact Hframe1| |exact Hr'].
    by apply (storable_no_zero d r table Hst). }
  exists d'. split; [done|]. constructor; [|done].
  pose proof (save_each_frame save_record table rs (framed_all rs)
                _ _ _ Heach) as Hframe2.
  eapply stored_frame; [exact Hframe2|done|]. intros k Hk. by apply Hdisj.
Qed.

Lemma save_tables_stores (subs : list (string * list record)) :
  Forall (fun tr => Forall saves (snd tr)) subs ->
  forall d, Forall (fun tr => Forall (ready d (fst tr)) (snd tr)) subs ->
  NoDup (subkeys subs) ->
  exists d', save_tables save_record d subs = (d', Ok tt)
             /\ Forall (fun tr => Forall (stored d' (fst tr)) (snd tr)) subs.
Proof.
  unfold subkeys.
  induction 1 as [|[table rs] subs Hrs _ IH]; intros d Hready Hnd; simpl.
  { exists d. by split. }
  inversion Hready as [|? ? Hready1 Hready']; subst. simpl in *.
  apply NoDup_app in Hnd as (Hnd1 & Hdisj & Hnd2).
  destruct (save_each_stores table rs Hrs d Hready1 Hnd1)
    as (d1 & Heach & Hstored).
  rewrite Heach.
  pose proof (save_each_frame save_record table rs (framed_all rs)
                _ _ _ Heach) as Hframe1.
  destruct (IH d1) as (d' & Htables & Hrest); [|done|].
  { eapply Forall_impl; [exact Hready'|]. intros [table' rs'] Hrs'.
    simpl in *. eapply Forall_impl; [exact Hrs'|]. intros r' Hr'.
    eapply ready_frame; [exact Hframe1| |exact Hr'].
    by apply (ready_no_zero d). }
  exists d'. split; [done|]. constructor; [|done]. simpl.
  pose proof (save_tables_frame save_record subs (framed_all_tables subs)
                _ _ _ Htables) as Hframe2.
  apply Forall_forall. intros r Hr. rewrite Forall_forall in Hstored.
  eapply stored_frame; [exact Hframe2|by apply Hstored|].
  intros k Hk. apply Hdisj. apply list_elem_of_In, in_flat_map.
  exists r. split; by apply list_elem_of_In.
Qed.

Lemma literals_dom (cs : gmap string ftype) (f : gmap string value) :
  is_Some (Sqlite.literals cs f) -> dom f ⊆ dom cs.
Proof.
  intros [stored Hlit]. unfold Sqlite.literals in Hlit.
  case_bool_decide as Hall; [|done].
  intros k Hk. apply elem_of_dom in Hk as [v Hv].
  destruct (Hall k v Hv) as [w Hw]. apply elem_of_dom.
  destruct (cs !! k); [done|]. done.
Qed.

Lemma storable_inv (d : db) (name : string) (i : Z) (f : gmap string value)
    (subs : list (string * list record)) :
  storable d name (Rec (Some i) f (Some subs)) = true ->
  exists rel,
    d !! name = Some rel /\ i <> 0 /\ Sqlite.int64 i = true /\ f <> ∅
    /\ is_Some (Sqlite.literals (cols rel) f)
    /\ NoDup (fst <$> subs)
    /\ Forall (fun tr => Forall (fun r => storable d (fst tr) r = true)
                           (snd tr)) subs.
Proof.
  cbn [storable]. destruct (d !! name) as [rel|]; [|done]. intros H.
  repeat (apply andb_prop in H as [H ?]).
  exists rel. split; [done|].
  split; [intros ->; by cbn in H|]. split; [done|].
  split; [by apply (bool_decide_eq_false_1 (f = ∅)), negb_true_iff|].
  split; [by eapply bool_decide_eq_true_1|].
  split; [by eapply bool_decide_eq_true_1|].
  apply Forall_forall. intros tr Htr. apply Forall_forall. intros r Hr.
  match goal with H : forallb _ subs = true |- _ =>
    rewrite forallb_forall in H; apply list_elem_of_In, H in Htr end.
  rewrite forallb_forall in Htr. by apply Htr, list_elem_of_In.
Qed.

(** Every valid, storable record without a repeated key is saved in
    full. *)
Lemma save_record_stores (r : record) : saves r.
Proof.
  induction r as [i f|i f subs IH] using record_ind';
    intros d T rel Hvalid Hrel Hfields Hst Hnd.
  { apply is_valid_record_inv in Hvalid as (? & ? & [=] & _). }
  pose proof Hvalid as Hinv.
  apply is_valid_record_inv in Hinv as (i' & subs' & Heq & Hsize & _ & Hsubs).
  cbn [rfields] in *. injection Heq as -> <-.
  apply storable_inv in Hst
    as (rel' & Hrel' & Hi & Hint & Hne & Hlit & Hkeys & Hsts).
  rewrite Hrel in Hrel'. injection Hrel' as <-.
  rewrite keys_unfold in Hnd. apply NoDup_cons in Hnd as [Hroot Hnd].
  rewrite save_record_unfold, Hvalid, (valid_manifest d T subs Hsubs).
  destruct (upsert_ok d T rel i' f (manifest_ids subs) Hrel Hlit)
    as (new & Hup & Hm & Hvals); [by right|].
  rewrite Hup. set (d1 := <[table_name T := _]> d) in *.
  assert (Hframe1 : frame d d1 [(table_name T, i')]).
  { apply upsert_frame in Hup as [Hc Hr]. split; [done|].
    intros name j Hj. apply Hr. intros Heq. apply Hj. rewrite Heq.
    apply elem_of_cons. by left. }
  assert (Hready : Forall (fun tr : string * list record =>
            Forall (ready d1 (fst tr)) (snd tr)) subs).
  { apply valid_tables_inv in Hsubs.
    rewrite Forall_forall in Hsubs, Hsts. apply Forall_forall.
    intros [table rs] Htr. destruct (Hsubs _ Htr) as [_ Hrs].
    specialize (Hsts _ Htr). simpl in *. apply valid_each_inv in Hrs.
    rewrite Forall_forall in Hrs, Hsts. apply Forall_forall. intros r Hr.
    eapply ready_frame; [exact Hframe1| |].
    - intros n Hin. apply elem_of_cons in Hin as [[= _ <-]|Hin]; [done|].
      by apply elem_of_nil in Hin.
    - split; [by apply Hrs|by apply Hsts]. }
  destruct (save_tables_stores subs IH d1 Hready Hnd)
    as (d' & Htables & Hstored).
  exists d'. split; [done|].
  pose proof (save_tables_frame save_record subs (framed_all_tables subs)
                _ _ _ Htables) as [Hcols2 Hrows2].
  destruct Hframe1 as [Hcols1 _].
  apply (stored_node d' (table_name T) i' f subs new (cols rel)); try done.
  - rewrite Hrows2 by done. unfold row_at, d1. rewrite lookup_insert_eq.
    simpl. by rewrite lookup_insert_eq.
  - by rewrite Hcols2, Hcols1, Hrel.
  - apply set_subseteq_size_eq; [by apply literals_dom|].
    rewrite !size_dom. rewrite Hsize, Hfields. done.
Qed.

(** More budget does not change what [get_record] returns. *)
Lemma hydrate_mono (get get' : Table -> Z -> result record) (d : db)
    (tup : Sqlite.tuple) (r : record) :
  (forall T i r, get T i = Ok r -> get' T i = Ok r) ->
  hydrate get d tup = Ok r -> hydrate get' d tup = Ok r.
Proof.
  intros Hget. destruct tup as [[i vals] m]. unfold hydrate. intros H.
  apply bind_ok in H as (subs & Hsubs & [= <-]).
  assert (mapM (fun '(table_name, ids) =>
            recs ← mapM (fun i => T' ← get_table d table_name; get' T' i) ids;
            Ok (table_name, recs)) (json_loads m) = Ok subs) as ->; [|done].
  apply mapM_ok_Forall2. apply mapM_ok_Forall2 in Hsubs.
  eapply Forall2_impl; [exact Hsubs|]. intros [table ids] tr Htr.
  apply bind_ok in Htr as (recs & Hrecs & [= <-]).
  assert (mapM (fun i => T' ← get_table d table; get' T' i) ids = Ok recs)
    as ->; [|done].
  apply mapM_ok_Forall2. apply mapM_ok_Forall2 in Hrecs.
  eapply Forall2_impl; [exact Hrecs|]. intros j c Hc.
  apply bind_ok in Hc as (T' & HT' & Hc). rewrite HT'. simpl. by apply Hget.
Qed.

Lemma get_record_mono (n : nat) (d : db) :
  forall T i r, get_record n d T i = Ok r -> get_record (S n) d T i = Ok r.
Proof.
  induction n as [|n IH]; intros T i r; [done|].
  rewrite (get_record_S (S n)), (get_record_S n).
  destruct (Sqlite.select_row _ _ _ _) as [[tup|]| | |]; try done.
  simpl. by apply hydrate_mono.
Qed.

Lemma get_record_mono_le (n m : nat) (d : db) (T : Table) (i : Z)
    (r : record) :
  (n <= m)%nat -> get_record n d T i = Ok r -> get_record m d T i = Ok r.
Proof.
  induction 1 as [|m _ IH]; [done|]. intros H. by apply get_record_mono, IH.
Qed.

Lemma fetched_le (d : db) (name : string) (n n' : nat) (r : record) :
  (n <= n')%nat -> fetched d name n r -> fetched d name n' r.
Proof. intros Hle H T HT Hc m Hm. apply H; [done|done|lia]. Qed.

Lemma fetched_all (d : db) (name : string) (rs : list record) :
  Forall (fun r => exists n, fetched d name n r) rs ->
  exists n, Forall (fetched d name n) rs.
Proof.
  induction 1 as [|r rs [n Hn] _ [n' IH]]; [by exists O|].
  exists (n `max` n')%nat. constructor.
  - eapply fetched_le; [|exact Hn]. lia.
  - eapply Forall_impl; [exact IH|]. intros r'. apply fetched_le. lia.
Qed.

Lemma fetched_all_tables (d : db) (subs : list (string * list record)) :
  Forall (fun tr => Forall (fun r => exists n, fetched d (fst tr) n r)
                      (snd tr)) subs ->
  exists n, Forall (fun tr => Forall (fetched d (fst tr) n) (snd tr)) subs.
Proof.
  induction 1 as [|[table rs] subs Hrs _ [n' IH]]; [by exists O|].
  apply fetched_all in Hrs as [n Hn]. simpl in Hn.
  exists (n `max` n')%nat. constructor; simpl.
  - eapply Forall_impl; [exact Hn|]. intros r'. apply fetched_le. lia.
  - eapply Forall_impl; [exact IH|]. intros [table' rs'] Hrs'. simpl in *.
    eapply Forall_impl; [exact Hrs'|]. intros r'. apply fetched_le. lia.
Qed.

Lemma mapM_id {A} (h : A -> result A) (l : list A) :
  Forall (fun x => h x = Ok x) l -> mapM h l = Ok l.
Proof.
  intros H. apply mapM_ok_Forall2. induction H; by constructor.
Qed.

Lemma stored_rid (d : db) (name : string) (r : record) :
  stored d name r -> is_Some (rid r).
Proof. intros H. inversion H. by eexists. Qed.

(** Every record in the database is fetched back as it is. *)
Lemma stored_fetched (r : record) :
  forall d name, stored d name r -> exists n, fetched d name n r.
Proof.
  induction r as [i f|i f subs IH] using record_ind'; intros d name Hst.
  { inversion Hst. }
  inversion Hst as [? i' ? ? new cs Hrow Hcs Hdom Hne Hsub Hvals Hnd Hall];
    subst.
  assert (Hchildren : Forall (fun tr : string * list record =>
            Forall (fun r => exists n, fetched d (fst tr) n r) (snd tr)) subs).
  { clear -IH Hall. induction IH as [|[table rs] subs Hrs _ IHsubs];
      [constructor|].
    inversion Hall as [|? ? Hrs' Hall']; subst. simpl in *.
    constructor; [|by apply IHsubs]. simpl. clear -Hrs Hrs'.
    induction Hrs as [|r rs' Hr _ IHrs]; [constructor|].
    inversion Hrs'; subst. constructor; [by apply Hr|by apply IHrs]. }
  apply fetched_all_tables in Hchildren as [n Hn].
  exists (S n). intros T HT HTcols m Hm.
  destruct m as [|m]; [lia|].
  change (default 0 (rid (Rec (Some i') f (Some subs)))) with i'.
  unfold row_at in Hrow. destruct (d !! name) as [rel|] eqn:Hrel; [|done].
  simpl in Hrow, Hcs, HTcols. injection Hcs as <-. injection HTcols as Hcols.
  rewrite <- HT in Hrel.
  rewrite (get_record_row m d T rel i' new); try done.
  2:{ rewrite <- Hcols. intros Hempty. apply Hne. apply dom_empty_iff_L.
      by rewrite Hdom, Hempty, dom_empty_L. }
  unfold Sqlite.to_tuple, hydrate. rewrite Hsub.
  rewrite json_loads_nodup
    by (unfold manifest_ids; by rewrite <- list_fmap_compose).
  assert (Hmap : mapM (fun '(table_name, ids) =>
            recs ← mapM (fun i => T' ← get_table d table_name;
                                  get_record m d T' i) ids;
            Ok (table_name, recs)) (manifest_ids subs) = Ok subs).
  { unfold manifest_ids. rewrite mapM_fmap. apply mapM_id.
    rewrite Forall_forall in Hn, Hall. apply Forall_forall.
    intros [table rs] Htr. specialize (Hn _ Htr). specialize (Hall _ Htr).
    simpl in *. rewrite mapM_fmap.
    rewrite (mapM_id _ rs); [done|].
    rewrite Forall_forall in Hn, Hall. apply Forall_forall. intros c Hc.
    specialize (Hn c Hc). specialize (Hall c Hc).
    inversion Hall as [? j ? ? new' cs' Hrow' Hcs' _ _ _ _ _ _]; subst.
    unfold row_at in Hrow'.
    destruct (d !! table) as [rel'|] eqn:Hrel'; [|done].
    destruct (get_table_ok d table rel' Hrel') as (T' & HT' & Hname' & Hf' & _).
    rewrite HT'. simpl. apply (Hn T'); [done| |lia].
    rewrite Hrel'. simpl. by rewrite Hf'. }
  rewrite Hmap. simpl. f_equal. f_equal.
  apply map_eq. intros k. rewrite map_lookup_imap.
  destruct (_fields T !! k) as [ty|] eqn:Hk; simpl.
  - assert (is_Some (f !! k)) as [v Hv].
    { apply elem_of_dom. rewrite Hdom, Hcols. apply elem_of_dom. eauto. }
    by rewrite (Hvals k v Hv), Hv.
  - symmetry. apply not_elem_of_dom. rewrite Hdom, Hcols.
    by apply not_elem_of_dom.
Qed.




(** ** C6: relative search *)


(** A query that ends with a quoted phrase makes the tokenizer index
    the empty text that is left after the phrase. *)
Lemma search_quoted_phrase_raises :
  search_records 1 Scenario.d_rex Scenario.Pet "name" Scenario.quoted_rex
    [] false
  = Raise IndexError.
Proof. by vm_compute. Qed.

Lemma like_percent_unfold (p s : string) :
  Sqlite.like (String "%" p) s
  = Sqlite.like p s
    || match s with
       | EmptyString => false
       | String _ s' => Sqlite.like (String "%" p) s'
       end.
Proof. by destruct s. Qed.

Lemma like_percent_any (s : string) : Sqlite.like "%" s = true.
Proof.
  induction s as [|c s IH]; [done|].
  rewrite like_percent_unfold. by rewrite IH, orb_true_r.
Qed.

Lemma like_char_unfold (c : ascii) (p s : string) :
  Ascii.eqb c "%" = false ->
  Sqlite.like (String c p) s
  = match s with
    | EmptyString => false
    | String d s' =>
        (Ascii.eqb c "_" || Ascii.eqb (lower_ascii c) (lower_ascii d))
        && Sqlite.like p s'
    end.
Proof.
  intros Hc.
  change (Sqlite.like (String c p) s) with
    (if Ascii.eqb c "%" then
       (fix skip (s : string) : bool :=
          Sqlite.like p s
          || match s with
             | EmptyString => false
             | String _ s' => skip s'
             end) s
     else
       match s with
       | EmptyString => false
       | String d s' =>
           (Ascii.eqb c "_" || Ascii.eqb (lower_ascii c) (lower_ascii d))
           && Sqlite.like p s'
       end).
  by rewrite Hc.
Qed.

(** A pattern without wildcard, followed by [%], matches the texts
    that begin with it, case apart. *)
Lemma like_prefix (k t : string) :
  has_char "%" k = false -> has_char "_" k = false ->
  Sqlite.like (String.append k "%") t = starts_with (lower k) (lower t).
Proof.
  revert t. induction k as [|c k IH]; intros t Hpc Hus.
  { simpl String.append. by rewrite like_percent_any. }
  cbn [has_char] in Hpc, Hus.
  destruct (Ascii.eqb "%" c) eqn:Hc1; [done|].
  destruct (Ascii.eqb "_" c) eqn:Hc2; [done|].
  rewrite Ascii.eqb_sym in Hc1. rewrite Ascii.eqb_sym in Hc2.
  change (String.append (String c k) "%")
    with (String c (String.append k "%")).
  rewrite like_char_unfold by done.
  change (lower (String c k)) with (String (lower_ascii c) (lower k)).
  destruct t as [|d t]; [done|].
  change (lower (String d t)) with (String (lower_ascii d) (lower t)).
  cbn [starts_with]. by rewrite Hc2, IH.
Qed.

(** A token without wildcard between two [%] matches the texts that
    contain it, case apart. *)
Lemma like_contains (k s : string) :
  has_char "%" k = false -> has_char "_" k = false ->
  Sqlite.like (String.append "%" (String.append k "%")) s
  = contains (lower k) (lower s).
Proof.
  intros Hpc Hus. change (String.append "%" (String.append k "%"))
    with (String "%" (String.append k "%")).
  induction s as [|c s IH]; rewrite like_percent_unfold, like_prefix by done.
  - done.
  - rewrite IH. done.
Qed.

(** *** The tokenizer on queries without quotes *)

Lemma plain_cons (c : ascii) (s : string) :
  plain (String c s) = true ->
  is_space c = Ascii.eqb c " " /\ Ascii.eqb c dquote = false
  /\ plain s = true.
Proof.
  cbn [plain]. intros H.
  apply andb_prop in H as [H Hs]. apply andb_prop in H as [Hsp Hq].
  split; [|split; [by apply negb_true_iff|done]].
  destruct (Ascii.eqb_spec c " ") as [->|_]; [done|].
  rewrite orb_false_r in Hsp. by apply negb_true_iff.
Qed.

Lemma append_snoc (cur : string) (c : ascii) (s : string) :
  String.append (String.append cur (String c EmptyString)) s
  = String.append cur (String c s).
Proof.
  induction cur as [|a cur IH]; [done|].
  change (String a (String.append (String.append cur (String c EmptyString)) s)
          = String a (String.append cur (String c s))).
  by rewrite IH.
Qed.

Lemma append_empty_r (s : string) : String.append s EmptyString = s.
Proof.
  induction s as [|a s IH]; [done|].
  change (String a (String.append s EmptyString) = String a s).
  by rewrite IH.
Qed.

Lemma find_found (c : ascii) (s : string) :
  has_char c s = true -> 0 <= find c s.
Proof.
  induction s as [|d s IH]; [done|]. cbn [has_char find].
  destruct (Ascii.eqb c d); [done|]. intros H. specialize (IH H).
  destruct (find c s <? 0) eqn:Hlt; [apply Z.ltb_lt in Hlt|]; lia.
Qed.

Lemma find_cons_ne (c d : ascii) (s : string) :
  Ascii.eqb c d = false -> has_char c s = true ->
  find c (String d s) = find c s + 1.
Proof.
  intros Hne Hin. cbn [find]. rewrite Hne.
  pose proof (find_found c s Hin) as Hge.
  destruct (find c s <? 0) eqn:Hlt; [apply Z.ltb_lt in Hlt; lia|done].
Qed.

Lemma rstrip_fixed_cons (c : ascii) (y : string) :
  rstrip (String c y) = String c y ->
  (y = EmptyString /\ is_space c = false)
  \/ (y <> EmptyString /\ rstrip y = y).
Proof.
  cbn [rstrip]. destruct (rstrip y) as [|a t] eqn:Hy.
  - destruct (is_space c) eqn:Hc; [done|]. intros [= <-]. by left.
  - intros [= <-]. right. by split.
Qed.

Lemma rstrip_idem (x : string) : rstrip (rstrip x) = rstrip x.
Proof.
  induction x as [|c x IH]; [done|]. cbn [rstrip].
  destruct (rstrip x) as [|a t] eqn:Hx.
  - destruct (is_space c) eqn:Hc; [done|]. cbn [rstrip]. by rewrite Hc.
  - cbn [rstrip]. cbn [rstrip] in IH. by rewrite IH.
Qed.

Lemma rstrip_head (c a : ascii) (t u : string) :
  rstrip (String c t) = String a u -> a = c.
Proof.
  cbn [rstrip]. destruct (rstrip t); [|by intros [= <- _]].
  destruct (is_space c); [done|]. by intros [= <- _].
Qed.

Lemma lstrip_head (s : string) (c : ascii) (t : string) :
  lstrip s = String c t -> is_space c = false.
Proof.
  induction s as [|d s IH]; [done|]. cbn [lstrip].
  destruct (is_space d) eqn:Hd; [done|]. by intros [= <- _].
Qed.

Lemma strip_head (s : string) (c : ascii) (t : string) :
  strip s = String c t -> is_space c = false.
Proof.
  unfold strip. destruct (lstrip s) as [|c0 t0] eqn:Hl; [done|].
  intros H. apply rstrip_head in H as ->. by eapply lstrip_head.
Qed.

(** A text that [rstrip] leaves alone and that is not empty is not
    blank. *)
Lemma fixed_not_blank (x : string) :
  rstrip x = x -> x <> EmptyString -> strip x <> EmptyString.
Proof.
  induction x as [|c y IH]; [done|]. intros Hfix _. unfold strip.
  cbn [lstrip]. destruct (is_space c) eqn:Hc; [|by rewrite Hfix].
  apply rstrip_fixed_cons in Hfix as [[_ Hc']|[Hy Hfix]]; [congruence|].
  by apply IH.
Qed.

(** In a text that [rstrip] leaves alone, what follows the first space
    is not blank. *)
Lemma after_space_not_blank (s : string) :
  rstrip s = s -> has_char " " s = true ->
  strip (slice_from s (find " " s + 1)) <> EmptyString.
Proof.
  induction s as [|c x IH]; [done|]. intros Hfix Hsp.
  apply rstrip_fixed_cons in Hfix as [[-> Hc]|[Hx Hfix]].
  { cbn [has_char] in Hsp. destruct (Ascii.eqb_spec " " c) as [<-|]; done. }
  cbn [has_char] in Hsp. unfold slice_from.
  destruct (Ascii.eqb " " c) eqn:Hc.
  - cbn [find]. rewrite Hc. simpl. by apply fixed_not_blank.
  - rewrite find_cons_ne by done. pose proof (find_found _ _ Hsp).
    replace (Z.to_nat (find " " x + 1 + 1))
      with (S (Z.to_nat (find " " x + 1))) by lia.
    cbn [drop_str]. by apply IH.
Qed.

Lemma plain_lstrip (s : string) : plain s = true -> plain (lstrip s) = true.
Proof.
  induction s as [|c s IH]; [done|]. intros H. cbn [lstrip].
  destruct (is_space c); [|done]. apply IH.
  by destruct (plain_cons _ _ H) as (_ & _ & ?).
Qed.

Lemma plain_rstrip (s : string) : plain s = true -> plain (rstrip s) = true.
Proof.
  induction s as [|c s IH]; [done|]. intros H.
  pose proof (plain_cons _ _ H) as (Hsp & Hq & Hs). specialize (IH Hs).
  cbn [rstrip]. destruct (rstrip s) as [|a t].
  - destruct (is_space c) eqn:Hc; [done|]. cbn [plain].
    by rewrite Hc, Hq.
  - cbn [plain] in *. apply andb_prop in H as [H _]. by rewrite H, IH.
Qed.

Lemma plain_drop (n : nat) (s : string) :
  plain s = true -> plain (drop_str n s) = true.
Proof.
  revert s. induction n as [|n IH]; intros s H; [done|].
  destruct s as [|c s]; [done|]. cbn [drop_str]. apply IH.
  by destruct (plain_cons _ _ H) as (_ & _ & ?).
Qed.

Lemma length_lstrip (s : string) :
  (String.length (lstrip s) <= String.length s)%nat.
Proof.
  induction s as [|c s IH]; [done|]. cbn [lstrip].
  destruct (is_space c); simpl; lia.
Qed.

Lemma length_rstrip (s : string) :
  (String.length (rstrip s) <= String.length s)%nat.
Proof.
  induction s as [|c s IH]; [done|]. cbn [rstrip].
  destruct (rstrip s) as [|a t]; [destruct (is_space c)|]; simpl in *; lia.
Qed.

Lemma length_drop (n : nat) (s : string) :
  (String.length (drop_str n s) <= String.length s - n)%nat.
Proof.
  revert s. induction n as [|n IH]; intros s; [simpl; lia|].
  destruct s as [|c s]; [done|]. cbn [drop_str]. specialize (IH s).
  simpl. lia.
Qed.

Lemma scan_cons (cur : string) (c : ascii) (s : string) :
  scan cur (String c s)
  = if Ascii.eqb c " " then
      match cur with
      | EmptyString => scan EmptyString s
      | _ => cur :: scan EmptyString s
      end
    else scan (String.append cur (String c EmptyString)) s.
Proof. done. Qed.

(** Leading spaces, and trailing ones, make no word. *)
Lemma scan_lstrip (s : string) :
  plain s = true -> scan EmptyString (lstrip s) = scan EmptyString s.
Proof.
  induction s as [|c s IH]; [done|]. intros H.
  pose proof (plain_cons _ _ H) as (Hsp & _ & Hs).
  cbn [lstrip]. destruct (is_space c) eqn:Hc; [|done].
  cbn [scan]. rewrite <- Hsp. by apply IH.
Qed.

Lemma scan_rstrip (s : string) :
  plain s = true -> forall cur, scan cur (rstrip s) = scan cur s.
Proof.
  induction s as [|c s IH]; [done|]. intros H cur.
  pose proof (plain_cons _ _ H) as (Hsp & _ & Hs). specialize (IH Hs).
  cbn [rstrip]. destruct (rstrip s) as [|a t] eqn:Hr.
  - destruct (is_space c) eqn:Hc.
    + cbn [scan]. rewrite <- Hsp. rewrite <- (IH EmptyString).
      by destruct cur.
    + cbn [scan]. rewrite <- Hsp. by rewrite <- IH.
  - rewrite (scan_cons cur c (String a t)), (scan_cons cur c s).
    destruct (Ascii.eqb c " "); by rewrite !IH.
Qed.

(** A text without a space is one word. *)
Lemma scan_word (s : string) :
  has_char " " s = false ->
  forall cur, scan cur s
  = match String.append cur s with EmptyString => [] | w => [w] end.
Proof.
  induction s as [|c s IH]; intros Hsp cur.
  { cbn [scan]. rewrite append_empty_r. by destruct cur. }
  cbn [has_char] in Hsp. rewrite Ascii.eqb_sym in Hsp.
  destruct (Ascii.eqb c " ") eqn:Hc; [done|].
  cbn [scan]. rewrite Hc, IH by done. by rewrite append_snoc.
Qed.

(** A text with a space: the word up to its first space, then the
    words of what follows that space. *)
Lemma scan_split (s : string) :
  has_char " " s = true ->
  forall cur,
    String.append cur (slice s 0 (find " " s)) <> EmptyString ->
    scan cur s
    = String.append cur (slice s 0 (find " " s))
      :: scan EmptyString (slice_from s (find " " s + 1)).
Proof.
  induction s as [|c s IH]; [done|]. intros Hsp cur Hne.
  cbn [has_char] in Hsp. destruct (Ascii.eqb " " c) eqn:Hc.
  - cbn [find] in *. rewrite Hc in *. unfold slice, slice_from in *.
    simpl in Hne |- *. rewrite Ascii.eqb_sym, Hc.
    rewrite append_empty_r in *. by destruct cur.
  - rewrite find_cons_ne in * by done.
    pose proof (find_found _ _ Hsp) as Hge.
    unfold slice, slice_from in *.
    replace (Z.to_nat (find " " s + 1 - 0))
      with (S (Z.to_nat (find " " s - 0))) in * by lia.
    replace (Z.to_nat (find " " s + 1 + 1))
      with (S (Z.to_nat (find " " s + 1))) by lia.
    change (Z.to_nat 0) with O in *. cbn [drop_str take_str] in *.
    cbn [scan]. rewrite Ascii.eqb_sym, Hc.
    rewrite <- append_snoc in Hne. rewrite IH by done.
    by rewrite append_snoc.
Qed.

Lemma _get_keywords_S (fuel : nat) (s : string) :
  _get_keywords (S fuel) s
  = match strip s with
    | EmptyString => Raise IndexError
    | String c _ =>
        if Ascii.eqb c dquote && (1 <? count_char dquote (strip s)) then
          let phrase_end := find dquote (slice_from (strip s) 1) + 1 in
          rest ← _get_keywords fuel (slice_from (strip s) (phrase_end + 1));
          Ok (slice (strip s) 1 phrase_end :: rest)
        else if has_char " " (strip s) then
          let space_loc := find " " (strip s) in
          rest ← _get_keywords fuel (slice_from (strip s) (space_loc + 1));
          Ok (slice (strip s) 0 space_loc :: rest)
        else Ok [strip s]
    end.
Proof. done. Qed.

(** On a query without quotes that is not blank, the tokenizer
    returns the words of the scan from left to right. *)
Lemma _get_keywords_scan (fuel : nat) :
  forall s, plain s = true -> (String.length s < fuel)%nat ->
  strip s <> EmptyString ->
  _get_keywords fuel s = Ok (scan_words s).
Proof.
  induction fuel as [|fuel IH]; intros s Hplain Hlen Hne; [lia|].
  rewrite _get_keywords_S. unfold scan_words.
  assert (Hplain1 : plain (strip s) = true)
    by (by apply plain_rstrip, plain_lstrip).
  assert (Hfix : rstrip (strip s) = strip s) by apply rstrip_idem.
  assert (Hlen1 : (String.length (strip s) <= String.length s)%nat).
  { unfold strip. pose proof (length_rstrip (lstrip s)).
    pose proof (length_lstrip s). lia. }
  rewrite <- (scan_lstrip s Hplain).
  rewrite <- (scan_rstrip (lstrip s) (plain_lstrip s Hplain)).
  fold (strip s).
  destruct (strip s) as [|c t] eqn:Hs1; [done|].
  pose proof (strip_head _ _ _ Hs1) as Hc.
  destruct (plain_cons _ _ Hplain1) as (Hsp & Hq & _).
  rewrite Hq. cbn [andb]. rewrite Hc in Hsp. symmetry in Hsp.
  destruct (has_char " " (String c t)) eqn:Hhas.
  - assert (Hfind : find " " (String c t) = find " " t + 1).
    { cbn [has_char] in Hhas. rewrite Ascii.eqb_sym, Hsp in Hhas.
      apply find_cons_ne; [by rewrite Ascii.eqb_sym|done]. }
    assert (Hge : 0 <= find " " t).
    { cbn [has_char] in Hhas. rewrite Ascii.eqb_sym, Hsp in Hhas.
      by apply find_found. }
    cbn zeta. rewrite (IH (slice_from (String c t) (find " " (String c t) + 1))).
    + cbn [mbind result_bind]. unfold scan_words.
      rewrite (scan_split (String c t)); [done|done|].
      rewrite Hfind. unfold slice.
      replace (Z.to_nat (find " " t + 1 - 0))
        with (S (Z.to_nat (find " " t))) by lia.
      done.
    + by apply plain_drop.
    + unfold slice_from. rewrite Hfind.
      pose proof (length_drop (Z.to_nat (find " " t + 1 + 1)) (String c t)).
      simpl in *. lia.
    + by apply after_space_not_blank.
  - by rewrite scan_word.
Qed.

(** The budget [get_keywords] gives is enough. *)
Lemma get_keywords_scan (q : string) :
  plain q = true -> strip q <> EmptyString ->
  get_keywords q = Ok (scan_words q).
Proof. intros. apply _get_keywords_scan; [done|lia|done]. Qed.

Lemma has_char_append (c : ascii) (a b : string) :
  has_char c (String.append a b) = has_char c a || has_char c b.
Proof.
  induction a as [|x a IH]; [done|].
  change (has_char c (String x (String.append a b))
          = has_char c (String x a) || has_char c b).
  cbn [has_char]. destruct (Ascii.eqb c x); [done|exact IH].
Qed.

Lemma plain_no_quote (s : string) : plain s = true -> has_char dquote s = false.
Proof.
  induction s as [|c s IH]; [done|]. intros H.
  destruct (plain_cons _ _ H) as (_ & Hq & Hs). cbn [has_char].
  rewrite Ascii.eqb_sym, Hq. by apply IH.
Qed.

Lemma scan_no_quote (s : string) :
  plain s = true -> forall cur, has_char dquote cur = false ->
  Forall (fun k => has_char dquote k = false) (scan cur s).
Proof.
  induction s as [|c s IH]; intros H cur Hcur.
  { cbn [scan]. destruct cur; [constructor|]. by repeat constructor. }
  destruct (plain_cons _ _ H) as (_ & Hq & Hs). rewrite scan_cons.
  destruct (Ascii.eqb c " ").
  - destruct cur; [by apply IH|]. constructor; [done|by apply IH].
  - apply IH; [done|]. rewrite has_char_append, Hcur. cbn [has_char orb].
    by rewrite Ascii.eqb_sym, Hq.
Qed.



(** The tokenizer on the query of the specification, a quoted phrase
    and a word; as a query of [search_records] it goes no further in
    this model: the whole query, quotes and all, is spliced between
    double quotes into the statement. *)
Lemma get_keywords_quoted_phrase :
  get_keywords
    (String dquote (String.append "red dog" (String dquote " cat")))
  = Ok ["red dog"; "cat"].
Proof. by vm_compute. Qed.

(** * Further properties of the class *)

(** ** The constructor and [get_table] *)

(** X1. The constructor raises [ValueError] exactly when the type of
    some field, in upper case, is not a key of [valid_types]; it has
    then created nothing. *)
Theorem Table_init_value_error
    (d : db) (name : string) (fields_and_types : gmap string string)
    (subtables : list string) :
  (exists f ty, fields_and_types !! f = Some ty
                /\ valid_types (upper ty) = None)
  <-> Table_init d name fields_and_types subtables = (d, Raise ValueError).
Proof.
  unfold Table_init. case_bool_decide as Hall; split.
  - intros (f & ty & Hf & Hty). exfalso.
    specialize (Hall f None). rewrite lookup_fmap, Hf in Hall. simpl in Hall.
    rewrite Hty in Hall. by destruct (Hall eq_refl).
  - destruct (_create_self _ _) as [d' [[]|e| |]] eqn:Hc; simpl; try done.
    intros [= _ ->]. unfold _create_self in Hc.
    destruct (Sqlite.table_info _ _); [done|].
    unfold Sqlite.create in Hc. by destruct (bool_decide _).
  - done.
  - intros _. apply map_not_Forall in Hall; [|apply _].
    destruct Hall as (f & o & Hin & Hno). rewrite lookup_fmap in Hin.
    destruct (fields_and_types !! f) as [ty|] eqn:Hf; [|done].
    injection Hin as <-. exists f, ty. split; [done|].
    destruct (valid_types (upper ty)); [|done].
    exfalso. apply Hno. by eexists.
Qed.

Lemma Table_init_value_error_witness :
  Table_init Scenario.d_pet "Vet" {[ "fee" := "money" ]} []
  = (Scenario.d_pet, Raise ValueError).
Proof.
  apply (proj1 (Table_init_value_error Scenario.d_pet "Vet"
                  {[ "fee" := "money" ]} [])).
  exists "fee", "money". split; by vm_compute.
Defined.



(** ** The id allocator in closed form *)

Lemma max_id_attained (rel : relation) (m : Z) :
  Sqlite.max_id rel = Some m -> is_Some (rows rel !! m).
Proof.
  unfold Sqlite.max_id. revert m.
  apply (map_fold_weak_ind (fun b (rs : gmap Z row) =>
    forall m, b = Some m -> is_Some (rs !! m))).
  - by intros m [=].
  - intros i x rs r Hi IH m [= <-]. destruct r as [m'|].
    + destruct (Z.max_spec i m') as [[_ ->]|[_ ->]].
      * destruct (decide (i = m')) as [->|Hne];
          [by rewrite lookup_insert_eq|].
        rewrite lookup_insert_ne by done. by apply IH.
      * by rewrite lookup_insert_eq.
    + by rewrite lookup_insert_eq.
Qed.

(** X3. On a table whose greatest row id is [M], [get_next_id]
    returns one more than the greater of [M] and the cache of the
    handle, and leaves that value in the cache; the retry of the
    source is never taken. *)
Theorem get_next_id_value
    (fuel : nat) (d : db) (T : Table) (rel : relation) (M : Z) :
  d !! table_name T = Some rel ->
  is_Some (rows rel !! M) ->
  (forall j, is_Some (rows rel !! j) -> j <= M) ->
  get_next_id (S fuel) d T
  = (MkTable (table_name T) (_subtables T) (_fields T)
       (Z.max M (_max_id T) + 1),
     Ok (Z.max M (_max_id T) + 1)).
Proof.
  intros Hrel HM Hmax. cbn [get_next_id].
  unfold Sqlite.select_max, Sqlite.select_id. rewrite Hrel.
  destruct (Sqlite.max_id rel) as [m|] eqn:Hm.
  2:{ apply max_id_spec in Hm. rewrite Hm in HM.
      rewrite lookup_empty in HM. by destruct HM. }
  assert (m = M) as ->.
  { pose proof (proj2 (max_id_spec rel) m Hm M HM).
    pose proof (Hmax m (max_id_attained rel m Hm)). lia. }
  destruct (M <? _max_id T) eqn:Hlt.
  - apply Z.ltb_lt in Hlt.
    destruct (rows rel !! _max_id T) as [x|] eqn:Hrow; simpl.
    + specialize (Hmax _ (ex_intro _ x Hrow)). lia.
    + by rewrite Z.max_r by lia.
  - apply Z.ltb_ge in Hlt. by rewrite Z.max_l by lia.
Qed.

Lemma get_next_id_value_witness :
  get_next_id 1 Scenario.d_rex (MkTable "Pet" [] (_fields Scenario.Pet) 7)
  = (MkTable "Pet" [] (_fields Scenario.Pet) 8, Ok 8).
Proof.
  apply (get_next_id_value 0 Scenario.d_rex
           (MkTable "Pet" [] (_fields Scenario.Pet) 7)
           (Relation {[ "name" := TEXT; "age" := INTEGER ]}
              {[ 0 := Row ∅ []; 1 := Row (rfields Scenario.rex) [] ]}) 1).
  - by vm_compute.
  - eexists. by vm_compute.
  - intros j [x Hj]. cbn [rows] in Hj.
    apply lookup_insert_Some in Hj as [[<- _]|[_ Hj]]; [lia|].
    apply lookup_singleton_Some in Hj as [<- _]. lia.
Defined.

(** X4. On a table without rows, as after [delete_record(0)] on a new
    table, [SELECT MAX(id)] yields NULL and the comparison of [None]
    with the cache raises [TypeError]: [get_next_id] and with it
    [create_record] fail, and the cache stays as it was. *)
Theorem get_next_id_empty_table
    (fuel : nat) (d : db) (T : Table) (rel : relation)
    (fields : gmap string value) (subrecords : list (string * list record)) :
  d !! table_name T = Some rel -> rows rel = ∅ ->
  get_next_id (S fuel) d T = (T, Raise TypeError)
  /\ create_record (S fuel) d T fields subrecords = (T, Raise TypeError).
Proof.
  intros Hrel Hrows.
  assert (Hnext : get_next_id (S fuel) d T = (T, Raise TypeError)).
  { cbn [get_next_id]. unfold Sqlite.select_max. rewrite Hrel.
    unfold Sqlite.max_id. rewrite Hrows. by rewrite map_fold_empty. }
  split; [done|]. unfold create_record. by rewrite Hnext.
Qed.

Lemma get_next_id_empty_table_witness :
  get_next_id 1 (fst (delete_record Scenario.d_pet Scenario.Pet 0))
    Scenario.Pet
  = (Scenario.Pet, Raise TypeError).
Proof.
  refine (proj1 (get_next_id_empty_table 0
    (fst (delete_record Scenario.d_pet Scenario.Pet 0)) Scenario.Pet
    (Relation {[ "name" := TEXT; "age" := INTEGER ]} ∅) ∅ [] _ _));
    by vm_compute.
Defined.

(** ** What [is_valid_record] accepts and rejects *)

Lemma is_valid_record_lengths (d : db) (T : Table) (r : record)
    (subs : list (string * list record)) :
  is_valid_record d T r = Ok true -> rsubs r = Some subs ->
  List.length subs = List.length (_subtables T).
Proof.
  destruct r as [i f s]. cbn [is_valid_record rsubs].
  destruct (negb _); [done|]. destruct i; [|done]. intros H ->. revert H.
  destruct (_ =? _)%nat eqn:Hlen; [|done]. intros _.
  by apply Nat.eqb_eq in Hlen.
Qed.

(** X5. A record that [is_valid_record] accepts, for a handle none of
    whose fields is named [id] or [subrecords], has an id and a
    [subrecords] dict, holds exactly the declared fields, each with a
    value of its declared type, has as many [subrecords] keys as the
    handle has subtables, all of them declared, and every subrecord
    is accepted by the table of its key. *)
Theorem is_valid_record_sound (d : db) (T : Table) (r : record) :
  is_valid_record d T r = Ok true ->
  _fields T !! "id" = None -> _fields T !! "subrecords" = None ->
  exists i subs,
    rid r = Some i /\ rsubs r = Some subs
    /\ dom (rfields r) = dom (_fields T)
    /\ (forall f ty, _fields T !! f = Some ty ->
        exists v, rfields r !! f = Some v /\ isinstance v ty = true)
    /\ List.length subs = List.length (_subtables T)
    /\ Forall (fun tr : string * list record =>
         fst tr ∈ _subtables T
         /\ Forall (fun c => exists T', get_table d (fst tr) = Ok T'
                                        /\ is_valid_record d T' c = Ok true)
              (snd tr)) subs.
Proof.
  intros Hvalid Hid Hsr.
  pose proof Hvalid as Hinv.
  apply is_valid_record_inv in Hinv as (i & subs & Heq & Hsize & Hall & Hsubs).
  exists i, subs.
  assert (Htyped : forall f ty, _fields T !! f = Some ty ->
            exists v, rfields r !! f = Some v /\ isinstance v ty = true).
  { intros f ty Hf. specialize (Hall f ty Hf). unfold field_ok in Hall.
    destruct (String.eqb_spec f "id") as [->|_]; [congruence|].
    destruct (String.eqb_spec f "subrecords") as [->|_]; [congruence|].
    destruct (rfields r !! f) as [v|]; [eauto|done]. }
  split; [by rewrite Heq|]. split; [by rewrite Heq|].
  split; [|split; [done|split]].
  - symmetry. apply set_subseteq_size_eq.
    + intros f Hf. apply elem_of_dom in Hf as [ty Hf].
      destruct (Htyped f ty Hf) as (v & Hv & _). apply elem_of_dom. eauto.
    + rewrite !size_dom. lia.
  - apply (is_valid_record_lengths d T r subs Hvalid). by rewrite Heq.
  - apply valid_tables_inv in Hsubs.
    eapply Forall_impl; [exact Hsubs|]. intros [table rs] [Hin Hrs].
    split; [done|]. by apply valid_each_inv in Hrs.
Qed.

Lemma is_valid_record_sound_witness :
  exists i subs,
    rid Scenario.ann = Some i /\ rsubs Scenario.ann = Some subs
    /\ dom (rfields Scenario.ann) = dom (_fields Scenario.Owner).
Proof.
  destruct (is_valid_record_sound Scenario.d_owner Scenario.Owner
              Scenario.ann) as (i & subs & Hi & Hs & Hdom & _);
    [by vm_compute..|].
  by exists i, subs.
Defined.

(** X6. [is_valid_record] returns [False], without raising and
    without a look at the subrecords, for a record that lacks its id
    or its [subrecords], whose number of fields is not that of the
    handle, whose [subrecords] has not as many keys as the handle has
    subtables, or in which a declared field is missing or holds a
    value of another type. *)
Theorem is_valid_record_rejects (d : db) (T : Table) (r : record) :
  rid r = None \/ rsubs r = None
  \/ size (rfields r) <> size (_fields T)
  \/ (exists subs, rsubs r = Some subs
        /\ List.length subs <> List.length (_subtables T))
  \/ (exists f ty, _fields T !! f = Some ty
        /\ f <> "id" /\ f <> "subrecords"
        /\ forall v, rfields r !! f = Some v -> isinstance v ty = false) ->
  is_valid_record d T r = Ok false.
Proof.
  destruct r as [i f s]. cbn [rid rsubs rfields is_valid_record].
  intros H. destruct (negb (_ =? _)) eqn:Hlen; [done|].
  apply negb_false_iff, Z.eqb_eq in Hlen. unfold record_len in Hlen.
  cbn [rid rsubs rfields] in Hlen.
  destruct i as [i|]; [|done]. destruct s as [subs|]; [|done].
  destruct (negb (_ =? _)%nat) eqn:Hsubs; [done|].
  apply negb_false_iff, Nat.eqb_eq in Hsubs.
  case_bool_decide as Hall; [|done]. exfalso.
  destruct H as [H|[H|[H|[(subs' & Heq & H)|(fd & ty & Hf & Hn1 & Hn2 & H)]]]];
    [done|done|lia|injection Heq as <-; lia|].
  specialize (Hall fd ty Hf). simpl in Hall. unfold field_ok in Hall.
  cbn [rfields] in Hall.
  destruct (String.eqb_spec fd "id") as [|_]; [done|].
  destruct (String.eqb_spec fd "subrecords") as [|_]; [done|].
  destruct (f !! fd) as [v|] eqn:Hv; [|done].
  by rewrite (H v eq_refl) in Hall.
Qed.

Lemma is_valid_record_rejects_witness :
  is_valid_record Scenario.d_pet Scenario.Pet Scenario.ageless = Ok false.
Proof.
  apply is_valid_record_rejects. right. right. left. by vm_compute.
Defined.

(** ** Saving again, saving and deleting *)

Lemma upsert_same (d : db) (T : Table) (i : Z) (f : gmap string value)
    (m : manifest) (rel : relation) (old : row) :
  d !! table_name T = Some rel -> rows rel !! i = Some old ->
  is_Some (Sqlite.literals (cols rel) f) ->
  r_sub old = m ->
  (forall k v, f !! k = Some v -> r_vals old !! k = Some v) ->
  upsert d T i f m = (d, Ok tt).
Proof.
  intros Hrel Hold [stored Hlit] Hm Hvals.
  assert (stored = f) as ->.
  { unfold Sqlite.literals in Hlit. destruct (bool_decide _); congruence. }
  unfold upsert, Sqlite.select_id, Sqlite.update. rewrite Hrel, Hold. simpl.
  rewrite Hlit. f_equal.
  assert (f ∪ r_vals old = r_vals old) as ->.
  { apply map_eq. intros k. destruct (f !! k) as [v|] eqn:Hk.
    - rewrite (Hvals k v Hk). by apply lookup_union_Some_l.
    - by rewrite lookup_union_r. }
  rewrite <- Hm. destruct old as [vals sub]. simpl.
  rewrite (insert_id (rows rel)) by done. rewrite relation_eta.
  by rewrite insert_id.
Qed.

(** A record that is in the database is saved without a change. *)
Lemma save_record_stored (r : record) :
  forall d T, stored d (table_name T) r ->
  is_valid_record d T r = Ok true ->
  storable d (table_name T) r = true ->
  save_record d T r = (d, Ok tt).
Proof.
  induction r as [i f|i f subs IH] using record_ind';
    intros d T Hstored Hvalid Hst.
  { inversion Hstored. }
  inversion Hstored as [? i' ? ? new cs Hrow Hcs Hdom Hne Hsub Hvals Hnd Hall];
    subst.
  pose proof Hvalid as Hinv.
  apply is_valid_record_inv in Hinv as (? & ? & [= <- <-] & _ & _ & Hsubs).
  apply storable_inv in Hst as (rel & Hrel & _ & _ & _ & Hlit & _ & Hsts).
  rewrite save_record_unfold, Hvalid, (valid_manifest d T subs Hsubs).
  unfold row_at in Hrow. rewrite Hrel in Hrow. simpl in Hrow.
  rewrite (upsert_same d T i' f (manifest_ids subs) rel new) by done.
  apply valid_tables_inv in Hsubs. clear -IH Hall Hsts Hsubs.
  induction IH as [|[table rs] subs Hrs _ IHsubs]; [done|].
  inversion Hall as [|? ? Hall1 Hall']; subst.
  inversion Hsts as [|? ? Hsts1 Hsts']; subst.
  inversion Hsubs as [|? ? [_ Hval1] Hsubs']; subst.
  simpl in *. apply valid_each_inv in Hval1.
  assert (save_each save_record table d rs = (d, Ok tt)) as ->;
    [|by apply IHsubs].
  clear -Hrs Hall1 Hsts1 Hval1.
  induction Hrs as [|c rs' Hc _ IHrs]; [done|].
  inversion Hall1; subst. inversion Hsts1; subst.
  inversion Hval1 as [|? ? (T' & HT' & Hvalid) Hval']; subst.
  simpl. rewrite HT'. pose proof (get_table_name _ _ _ HT') as Hname.
  rewrite (Hc d T'); rewrite ?Hname; try done. by apply IHrs.
Qed.

(** X7. Saving a record a second time changes nothing: after a save
    that returned, of a storable record no two records of whose tree
    are bound for the same id of the same table, [save_record] on the
    same record returns and leaves the database as the first save
    left it. *)
Theorem save_record_idempotent
    (d d1 : db) (T : Table) (rel : relation) (r : record) :
  d !! table_name T = Some rel -> _fields T = cols rel ->
  is_valid_record d T r = Ok true ->
  storable d (table_name T) r = true ->
  NoDup (keys (table_name T) r) ->
  save_record d T r = (d1, Ok tt) ->
  save_record d1 T r = (d1, Ok tt).
Proof.
  intros Hrel Hfields Hvalid Hst Hnd Hsave.
  destruct (save_record_stores r d T rel Hvalid Hrel Hfields Hst Hnd)
    as (d' & Hsave' & Hstored).
  rewrite Hsave in Hsave'. injection Hsave' as <-.
  pose proof (save_record_frame _ _ _ _ _ Hsave) as Hframe.
  pose proof (storable_no_zero d r _ Hst) as Hzero.
  apply save_record_stored; [done| |].
  - rewrite (is_valid_record_schema d d1); [done|].
    by apply (get_table_frame d d1 _ Hframe).
  - rewrite (storable_cols d d1); [done|]. apply Hframe.
Qed.

Lemma save_record_idempotent_witness :
  save_record Scenario.d_ann Scenario.Owner Scenario.ann
  = (Scenario.d_ann, Ok tt).
Proof.
  apply (save_record_idempotent Scenario.d_owner Scenario.d_ann
           Scenario.Owner
           (Relation {[ "name" := TEXT ]} {[ 0 := Row ∅ [("Pet", [])] ]})).
  - by vm_compute.
  - by vm_compute.
  - by vm_compute.
  - by vm_compute.
  - apply (bool_decide_unpack _). by vm_compute.
  - by vm_compute.
Defined.

Lemma save_tables_no_children
    (save : db -> Table -> record -> db * result unit) (d : db)
    (subs : list (string * list record)) :
  Forall (fun tr => snd tr = []) subs -> save_tables save d subs = (d, Ok tt).
Proof.
  induction 1 as [|[table rs] subs Hrs _ IH]; [done|].
  simpl in Hrs. subst rs. simpl. exact IH.
Qed.



(** X9. [delete_record] twice is [delete_record] once: the second
    call has the outcome of the first and changes nothing.  After
    the call, [get_record] of the deleted id through a handle that
    carries the columns of the table, one at least, raises
    [InvalidRecordError]. *)
Theorem delete_record_twice_then_get (d : db) (T : Table) (i : Z) :
  let d1 := fst (delete_record d T i) in
  delete_record d1 T i = (d1, snd (delete_record d T i))
  /\ (forall rel fuel,
        d !! table_name T = Some rel -> cols rel = _fields T ->
        _fields T <> ∅ ->
        get_record (S fuel) d1 T i = Raise InvalidRecordError).
Proof.
  unfold delete_record, Sqlite.delete. cbv zeta.
  destruct (d !! table_name T) as [rel|] eqn:Hrel; cbn [fst snd].
  - split.
    + rewrite lookup_insert_eq. cbn [cols rows].
      rewrite delete_delete_eq. by rewrite insert_insert_eq.
    + intros rel' fuel [= <-] Hcols Hne. rewrite get_record_S.
      unfold Sqlite.select_row.
      rewrite (select_cols_ok _ T (Relation (cols rel) (base.delete i (rows rel))));
        [|apply lookup_insert_eq|done|done].
      simpl. by rewrite lookup_delete_eq.
  - rewrite Hrel. split; [done|]. by intros.
Qed.

Lemma delete_record_twice_then_get_witness :
  get_record 1 (fst (delete_record Scenario.d_rex Scenario.Pet 1))
    Scenario.Pet 1
  = Raise InvalidRecordError.
Proof.
  apply (proj2 (delete_record_twice_then_get Scenario.d_rex Scenario.Pet 1)
           (Relation {[ "name" := TEXT; "age" := INTEGER ]}
              {[ 0 := Row ∅ []; 1 := Row (rfields Scenario.rex) [] ]}) 0%nat).
  - by vm_compute.
  - by vm_compute.
  - intros H.
    by apply (f_equal (fun m : gmap string ftype => m !! "name")) in H.
Defined.



(** ** A table as the constructor leaves it *)

Lemma mapM_no_ids (get : string -> Z -> result record)
    (tables : list string) :
  mapM (fun '(table_name, ids) =>
          recs ← mapM (get table_name) ids; Ok (table_name, recs))
       ((fun table : string => (table, @nil Z)) <$> tables)
  = Ok ((fun table : string => (table, @nil record)) <$> tables).
Proof.
  induction tables as [|t tables IH]; [done|].
  change (mapM ?g ((fun table : string => (table, @nil Z)) <$> t :: tables))
    with (y ← g (t, []);
          k ← mapM g ((fun table : string => (table, @nil Z)) <$> tables);
          mret (y :: k)).
  by rewrite IH.
Qed.



(** ** The tokenizer of [search_records] *)

Lemma find_lower_bound (c : ascii) (s : string) : -1 <= find c s.
Proof.
  induction s as [|d s IH]; [done|]. cbn [find].
  destruct (Ascii.eqb c d); [lia|].
  destruct (find c s <? 0) eqn:Hlt; [lia|]. apply Z.ltb_ge in Hlt. lia.
Qed.

Lemma length_strip (s : string) :
  (String.length (strip s) <= String.length s)%nat.
Proof.
  unfold strip. pose proof (length_rstrip (lstrip s)).
  pose proof (length_lstrip s). lia.
Qed.

(** Each call of [_get_keywords] hands a shorter text to the next, so
    two budgets above the length of the text give the same outcome,
    and that outcome is a list of tokens or [IndexError]. *)
Lemma _get_keywords_budget (n : nat) :
  forall s fuel fuel',
    (String.length s <= n)%nat ->
    (String.length s < fuel)%nat -> (String.length s < fuel')%nat ->
    _get_keywords fuel s = _get_keywords fuel' s
    /\ ((exists ws, _get_keywords fuel s = Ok ws)
        \/ _get_keywords fuel s = Raise IndexError).
Proof.
  induction n as [|n IH]; intros s fuel fuel' Hn Hfuel Hfuel';
    (destruct fuel as [|fuel]; [lia|]); (destruct fuel' as [|fuel']; [lia|]);
    rewrite !_get_keywords_S; pose proof (length_strip s) as Hstrip.
  { destruct (strip s) as [|c t]; [by split; [|right]|]. simpl in *. lia. }
  destruct (strip s) as [|c t] eqn:Hs; [by split; [|right]|].
  assert (Hrec : forall a, 1 <= a ->
            _get_keywords fuel (slice_from (String c t) a)
            = _get_keywords fuel' (slice_from (String c t) a)
            /\ ((exists ws, _get_keywords fuel (slice_from (String c t) a) = Ok ws)
                \/ _get_keywords fuel (slice_from (String c t) a)
                   = Raise IndexError)).
  { intros a Ha. unfold slice_from.
    pose proof (length_drop (Z.to_nat a) (String c t)) as Hdrop.
    simpl in *. apply IH; lia. }
  destruct (Ascii.eqb c dquote && _).
  - pose proof (find_lower_bound dquote (slice_from (String c t) 1)) as Hge.
    cbv zeta.
    destruct (Hrec (find dquote (slice_from (String c t) 1) + 1 + 1))
      as [Heq [[ws Hws]|Herr]]; [lia| |].
    + rewrite <- Heq, Hws. split; [done|]. left. by eexists.
    + rewrite <- Heq, Herr. split; [done|]. by right.
  - destruct (has_char " " (String c t)) eqn:Hsp.
    + pose proof (find_found _ _ Hsp) as Hge. cbv zeta.
      destruct (Hrec (find " " (String c t) + 1))
        as [Heq [[ws Hws]|Herr]]; [lia| |].
      * rewrite <- Heq, Hws. split; [done|]. left. by eexists.
      * rewrite <- Heq, Herr. split; [done|]. by right.
    + split; [done|]. left. by eexists.
Qed.

(** X12. The recursion of [_get_keywords] ends on every query: with
    the budget of [get_keywords], and with any larger one to the same
    effect, it returns a list of tokens or raises [IndexError]; a
    list it returns is never empty. *)
Theorem get_keywords_terminates (q : string) :
  ((exists w ws, get_keywords q = Ok (w :: ws))
   \/ get_keywords q = Raise IndexError)
  /\ (forall fuel, (String.length q < fuel)%nat ->
        _get_keywords fuel q = get_keywords q).
Proof.
  split.
  - unfold get_keywords.
    destruct (_get_keywords_budget (String.length q) q
                (S (String.length q)) (S (String.length q)))
      as [_ [[ws Hws]|Herr]]; [lia|lia|lia| |by right].
    left. rewrite Hws. rewrite _get_keywords_S in Hws.
    destruct (strip q) as [|c t]; [done|].
    destruct (Ascii.eqb c dquote && _).
    + cbv zeta in Hws. apply bind_ok in Hws as (rest & _ & [= <-]).
      by eexists _, _.
    + destruct (has_char " " (String c t)).
      * cbv zeta in Hws. apply bind_ok in Hws as (rest & _ & [= <-]).
        by eexists _, _.
      * injection Hws as <-. by eexists _, _.
  - intros fuel Hfuel. unfold get_keywords.
    apply (_get_keywords_budget (String.length q)); lia.
Qed.

Lemma get_keywords_terminates_witness :
  _get_keywords 20 "red dog" = get_keywords "red dog".
Proof.
  apply (proj2 (get_keywords_terminates "red dog") 20%nat).
  simpl. lia.
Defined.

Lemma rstrip_ends (x : string) (c : ascii) :
  is_space c = false ->
  rstrip (String.append x (String c EmptyString))
  = String.append x (String c EmptyString).
Proof.
  intros Hc. induction x as [|a x IH].
  - change (rstrip (String c EmptyString) = String c EmptyString).
    cbn [rstrip]. by rewrite Hc.
  - change (String.append (String a x) (String c EmptyString))
      with (String a (String.append x (String c EmptyString))).
    cbn [rstrip]. rewrite IH. by destruct x.
Qed.

Lemma count_char_fresh (c : ascii) (p rest : string) :
  has_char c p = false ->
  count_char c (String.append p rest) = count_char c rest.
Proof.
  induction p as [|a p IH]; [done|]. cbn [has_char].
  destruct (Ascii.eqb c a) eqn:Hca; [done|]. intros Hp.
  change (String.append (String a p) rest)
    with (String a (String.append p rest)).
  cbn [count_char]. rewrite Hca, IH by done. lia.
Qed.

Lemma find_fresh (c : ascii) (p rest : string) :
  has_char c p = false ->
  find c (String.append p (String c rest)) = Z.of_nat (String.length p).
Proof.
  induction p as [|a p IH].
  - intros _. change (find c (String c rest) = 0).
    cbn [find]. by rewrite Ascii.eqb_refl.
  - cbn [has_char]. destruct (Ascii.eqb c a) eqn:Hca; [done|]. intros Hp.
    change (String.append (String a p) (String c rest))
      with (String a (String.append p (String c rest))).
    cbn [find]. rewrite Hca, IH by done.
    destruct (Z.of_nat (String.length p) <? 0) eqn:Hlt.
    + apply Z.ltb_lt in Hlt. lia.
    + cbn [String.length]. lia.
Qed.

Lemma drop_str_all (n : nat) (s : string) :
  (String.length s <= n)%nat -> drop_str n s = EmptyString.
Proof.
  revert s. induction n as [|n IH]; intros [|c s] Hlen; try done.
  - simpl in Hlen. lia.
  - cbn [drop_str]. apply IH. simpl in Hlen. lia.
Qed.

Lemma length_append (a b : string) :
  String.length (String.append a b)
  = (String.length a + String.length b)%nat.
Proof. induction a as [|c a IH]; [done|]. simpl. by rewrite IH. Qed.

(** X13. Three ways [search_records] raises before it reads a row.
    A field the handle does not declare: [InvalidRecordError], in
    either mode.  In relative mode, on a declared field: a query that
    is empty or all white space raises [IndexError], and so does a
    query that is one phrase between double quotes, because the
    tokenizer goes on with the empty text that follows the closing
    quote. *)
Theorem search_records_raises
    (fuel : nat) (d : db) (T : Table) (f q : string) (exclude : list Z) :
  (_fields T !! f = None ->
     forall strict,
       search_records fuel d T f q exclude strict = Raise InvalidRecordError)
  /\ (is_Some (_fields T !! f) ->
      strip q = EmptyString
      \/ (exists p, has_char dquote p = false
                    /\ q = String dquote
                             (String.append p (String dquote EmptyString))) ->
      get_keywords q = Raise IndexError
      /\ search_records fuel d T f q exclude false = Raise IndexError).
Proof.
  split.
  { intros Hf strict. unfold search_records. by rewrite Hf. }
  intros [ty Hf] Hq.
  assert (Hkw : get_keywords q = Raise IndexError).
  { unfold get_keywords.
    destruct Hq as [Hq|(p & Hp & ->)]; [by rewrite _get_keywords_S, Hq|].
    change (String.length (String dquote ?x)) with (S (String.length x)).
    rewrite _get_keywords_S.
    assert (Hstrip : strip (String dquote
                       (String.append p (String dquote EmptyString)))
                     = String dquote
                         (String.append p (String dquote EmptyString))).
    { unfold strip. cbn [lstrip].
      replace (is_space dquote) with false by (by vm_compute).
      apply (rstrip_ends (String dquote p)). by vm_compute. }
    rewrite Hstrip. rewrite Ascii.eqb_refl. cbn [count_char].
    rewrite Ascii.eqb_refl, count_char_fresh by done.
    cbn [count_char]. rewrite Ascii.eqb_refl. cbn [andb Z.ltb Z.compare Z.add
      Pos.add Pos.compare Pos.compare_cont Pos.succ].
    cbv zeta.
    change (slice_from (String dquote ?x) 1) with x.
    rewrite find_fresh by done. unfold slice_from.
    rewrite drop_str_all.
    2:{ cbn [String.length]. rewrite length_append. simpl. lia. }
    by rewrite _get_keywords_S. }
  split; [done|]. unfold search_records. by rewrite Hf, Hkw.
Qed.

Lemma search_records_raises_witness :
  search_records 1 Scenario.d_rex Scenario.Pet "colour" "rex" [] false
  = Raise InvalidRecordError
  /\ search_records 1 Scenario.d_rex Scenario.Pet "name" "  " [] false
     = Raise IndexError
  /\ search_records 1 Scenario.d_rex Scenario.Pet "name"
       Scenario.quoted_rex [] false
     = Raise IndexError.
Proof.
  split; [|split].
  - apply (proj1 (search_records_raises 1 Scenario.d_rex Scenario.Pet
                    "colour" "rex" [])). by vm_compute.
  - apply (proj2 (search_records_raises 1 Scenario.d_rex Scenario.Pet
                    "name" "  " [])).
    + eexists. by vm_compute.
    + left. by vm_compute.
  - apply (proj2 (search_records_raises 1 Scenario.d_rex Scenario.Pet
                    "name" Scenario.quoted_rex [])).
    + eexists. by vm_compute.
    + right. exists "Rex". split; by vm_compute.
Defined.

Lemma NoDup_fst_filter {A B} (p : A * B -> bool) (l : list (A * B)) :
  NoDup (fst <$> l) -> NoDup (fst <$> List.filter p l).
Proof.
  induction l as [|x l IH]; [done|]. rewrite fmap_cons, NoDup_cons.
  intros [Hx Hl]. cbn [List.filter]. destruct (p x); [|by apply IH].
  rewrite fmap_cons, NoDup_cons. split; [|by apply IH].
  intros Hin. apply Hx. apply list_elem_of_fmap in Hin as (y & Hy & Hin).
  apply list_elem_of_fmap. exists y. split; [done|].
  apply list_elem_of_In, filter_In in Hin as [Hin _].
  by apply list_elem_of_In.
Qed.



(** ** [create_record] and the keys of the caller's dict *)

(** The checks of [is_valid_record] look at the presence of the id,
    not at its value. *)
Lemma is_valid_record_any_id (d : db) (T : Table) (i j : Z)
    (f : gmap string value) (s : option (list (string * list record))) :
  is_valid_record d T (Rec (Some i) f s)
  = is_valid_record d T (Rec (Some j) f s).
Proof. reflexivity. Qed.

(** X15. [create_record] copies the caller's keys over the fresh id:
    when [fields] carries an ["id"] key, the record returned has that
    id, which may be the id of a row of the table, instead of the one
    [get_next_id] has just allocated; the handle moves on all the
    same, and the record is otherwise the one built without the key.
    A ["subrecords"] key of [fields] is lost to the [subrecords]
    argument. *)
Theorem create_record_id_key
    (fuel : nat) (d : db) (T T' : Table) (fields : gmap string value)
    (subrecords : list (string * list record)) (z : Z) (v : value)
    (r : record) :
  fields !! "id" = None -> fields !! "subrecords" = None ->
  create_record fuel d T fields subrecords = (T', Ok r) ->
  create_record fuel d T (<["id" := VInt z]> fields) subrecords
  = (T', Ok (Rec (Some z) (rfields r) (rsubs r)))
  /\ create_record fuel d T (<["subrecords" := v]> fields) subrecords
     = (T', Ok r)
  /\ rfields r = fields /\ rsubs r = Some subrecords
  /\ exists n, get_next_id fuel d T = (T', Ok n) /\ rid r = Some n.
Proof.
  intros Hid Hsub. unfold create_record.
  destruct (get_next_id fuel d T) as [T1 [n| | |]] eqn:Hnext; try done.
  rewrite lookup_insert_eq, Hid.
  rewrite lookup_insert_ne, Hid by done.
  cbn [mbind result_bind].
  rewrite (delete_insert_ne fields "subrecords" "id") by done.
  rewrite !delete_insert_eq.
  rewrite (delete_id fields "subrecords") by done.
  rewrite (delete_id fields "id") by done.
  rewrite (is_valid_record_any_id d T1 z n).
  destruct (is_valid_record d T1 _) as [[|]| | |]; try done.
  intros [= <- <-]. repeat split. by exists n.
Qed.

Lemma create_record_id_key_witness :
  create_record 1 Scenario.d_pet Scenario.Pet
    (<["id" := VInt 0]> {[ "name" := VStr "Rex"; "age" := VInt 3 ]}) []
  = (MkTable "Pet" [] {[ "name" := TEXT; "age" := INTEGER ]} 1,
     Ok (Rec (Some 0) {[ "name" := VStr "Rex"; "age" := VInt 3 ]} (Some []))).
Proof.
  assert (Hid : ({[ "name" := VStr "Rex"; "age" := VInt 3 ]}
                   : gmap string value) !! "id" = None) by (by vm_compute).
  assert (Hsub : ({[ "name" := VStr "Rex"; "age" := VInt 3 ]}
                    : gmap string value) !! "subrecords" = None)
    by (by vm_compute).
  assert (Hrex : create_record 1 Scenario.d_pet Scenario.Pet
                   {[ "name" := VStr "Rex"; "age" := VInt 3 ]} []
                 = (MkTable "Pet" [] {[ "name" := TEXT; "age" := INTEGER ]} 1,
                    Ok Scenario.rex)) by (by vm_compute).
  exact (proj1 (create_record_id_key 1 Scenario.d_pet Scenario.Pet _ _ []
                  0 VNone Scenario.rex Hid Hsub Hrex)).
Defined.

(** ** A save that fails halfway *)



(** ** Fetching a record and saving it again *)

Lemma hydrate_inv (get : Table -> Z -> result record) (d : db)
    (i : Z) (vals : gmap string value) (m : manifest) (r : record) :
  hydrate get d (i, vals, m) = Ok r ->
  exists subs,
    r = Rec (Some i) vals (Some subs)
    /\ Forall2 (fun kv tr =>
         fst tr = fst kv
         /\ Forall2 (fun c rec => exists T', get_table d (fst kv) = Ok T'
                                             /\ get T' c = Ok rec)
              (snd kv) (snd tr))
         (json_loads m) subs.
Proof.
  unfold hydrate. intros H. apply bind_ok in H as (subs & Hsubs & [= <-]).
  exists subs. split; [done|]. apply mapM_ok_Forall2 in Hsubs.
  eapply Forall2_impl; [exact Hsubs|]. intros [t ids] [t' recs] Htr.
  apply bind_ok in Htr as (recs' & Hrecs & [= <- <-]). split; [done|].
  apply mapM_ok_Forall2 in Hrecs. eapply Forall2_impl; [exact Hrecs|].
  intros c rec Hc. apply bind_ok in Hc as (T' & HT' & Hc). eauto.
Qed.

Lemma literals_not_none (cs : gmap string ftype) (f : gmap string value)
    (k : string) :
  is_Some (Sqlite.literals cs f) -> f !! k <> Some VNone.
Proof.
  intros [stored Hlit] Hk. unfold Sqlite.literals in Hlit.
  case_bool_decide as Hall; [|done].
  destruct (Hall k VNone Hk) as [w Hw].
  by destruct (cs !! k) as [[]|].
Qed.

(** A record [get_record] returns, if storable, is in the database:
    its fields are those of its row and its subrecords those the
    manifest of the row lists. *)
Lemma get_record_stored (fuel : nat) :
  forall (d : db) (T : Table) (rel : relation) (i : Z) (r : record),
    map_Forall (fun _ rel' =>
      map_Forall (fun _ row' => NoDup (fst <$> r_sub row')) (rows rel')) d ->
    d !! table_name T = Some rel -> _fields T = cols rel ->
    get_record fuel d T i = Ok r ->
    storable d (table_name T) r = true ->
    stored d (table_name T) r.
Proof.
  induction fuel as [|fuel IH]; intros d T rel i r Hwf Hrel Hfields Hget Hst;
    [done|].
  rewrite get_record_S in Hget.
  apply bind_ok in Hget as ([tup|] & Hsel & Hget); [|done].
  unfold Sqlite.select_row in Hsel.
  apply bind_ok in Hsel as (rel' & Hcols & [= Hsel]).
  unfold Sqlite.select_cols in Hcols. rewrite Hrel in Hcols.
  repeat case_bool_decide; try done. injection Hcols as <-.
  destruct (rows rel !! i) as [row|] eqn:Hrow; [|done].
  injection Hsel as <-. unfold Sqlite.to_tuple in Hget.
  apply hydrate_inv in Hget as (subs & -> & Hsubs).
  apply storable_inv in Hst as (rel' & Hrel' & _ & _ & Hne & Hlit & Hnd & Hsts).
  rewrite Hrel in Hrel'. injection Hrel' as <-.
  pose proof (Hwf _ _ Hrel _ _ Hrow) as Hkeys. simpl in Hkeys.
  rewrite (json_loads_nodup _ Hkeys) in Hsubs.
  apply (stored_node d (table_name T) i _ subs row (cols rel)).
  - unfold row_at. by rewrite Hrel.
  - by rewrite Hrel.
  - rewrite Hfields. apply set_eq. intros k.
    rewrite !elem_of_dom, map_lookup_imap.
    destruct (cols rel !! k) as [ty|]; simpl.
    + split; intros _; by eexists.
    + split; intros [? [=]].
  - done.
  - clear -Hsubs IH. unfold manifest_ids.
    induction Hsubs as [|[t ids] [t' recs] m subs [Ht Hrecs] _ IHm]; [done|].
    simpl in *. subst t'. f_equal; [|exact IHm].
    f_equal. clear -Hrecs.
    induction Hrecs as [|c rec ids recs (T' & _ & Hc) _ IHr]; [done|].
    cbn [fmap list_fmap]. f_equal; [|exact IHr].
    by rewrite (get_record_rid _ _ _ _ _ Hc).
  - intros k v Hk. pose proof (literals_not_none _ _ k Hlit) as Hnone.
    rewrite Hk in Hnone. rewrite map_lookup_imap in Hk.
    destruct (_fields T !! k); [|done]. simpl in Hk.
    destruct (r_vals row !! k) as [w|]; simpl in Hk; congruence.
  - done.
  - clear -Hsubs Hsts IH Hwf. revert Hsts.
    induction Hsubs as [|[t ids] [t' recs] m subs [Ht Hrecs] _ IHm];
      intros Hsts; [constructor|].
    inversion Hsts as [|? ? Hst1 Hsts']; subst. simpl in *. subst t'.
    constructor; [|by apply IHm]. simpl. clear -Hrecs Hst1 IH Hwf.
    revert Hst1.
    induction Hrecs as [|c rec ids recs (T' & HT' & Hc) _ IHr];
      intros Hst1; [constructor|].
    inversion Hst1; subst. constructor; [|by apply IHr].
    apply get_table_inv in HT' as (rel' & Hrel' & Hname & Hf').
    rewrite <- Hname. apply (IH d T' rel' c); rewrite ?Hname; done.
Qed.



(** ** The handle [get_table] builds *)

Lemma dict_set_keys {A} (k : string) (v : A) (d : list (string * A)) :
  NoDup (fst <$> d) ->
  NoDup (fst <$> dict_set k v d)
  /\ (forall t, t ∈ fst <$> dict_set k v d <-> t = k \/ t ∈ fst <$> d).
Proof.
  induction d as [|[k' v'] d IH]; intros Hnd.
  - simpl. split; [apply NoDup_singleton|]. intros t.
    rewrite list_elem_of_singleton, elem_of_nil. tauto.
  - rewrite fmap_cons, NoDup_cons in Hnd. destruct Hnd as [Hk' Hnd].
    destruct (IH Hnd) as [IHnd IHin]. cbn [dict_set fst snd].
    destruct (String.eqb_spec k k') as [->|Hne].
    + rewrite !fmap_cons. cbn [fst]. split; [by apply NoDup_cons|].
      intros t. rewrite elem_of_cons. tauto.
    + rewrite !fmap_cons. cbn [fst]. split.
      * apply NoDup_cons. split; [|done]. rewrite IHin. intros [?|?]; auto.
      * intros t. rewrite !elem_of_cons, IHin. tauto.
Qed.

Lemma json_loads_keys (m : manifest) :
  NoDup (fst <$> json_loads m)
  /\ (forall t, t ∈ fst <$> json_loads m <-> t ∈ fst <$> m).
Proof.
  unfold json_loads.
  assert (H : forall acc : manifest, NoDup (fst <$> acc) ->
            NoDup (fst <$> fold_left
                     (fun d kv => dict_set (fst kv) (snd kv) d) m acc)
            /\ (forall t, t ∈ fst <$> fold_left
                     (fun d kv => dict_set (fst kv) (snd kv) d) m acc
                  <-> t ∈ fst <$> acc \/ t ∈ fst <$> m)).
  { induction m as [|[k v] m IH]; intros acc Hacc; simpl.
    - split; [done|]. intros t. rewrite elem_of_nil. tauto.
    - destruct (dict_set_keys k v acc Hacc) as [Hnd Hin].
      destruct (IH _ Hnd) as [IHnd IHin]. split; [done|].
      intros t. rewrite IHin, Hin, elem_of_cons. tauto. }
  destruct (H [] (NoDup_nil_2)) as [Hnd Hin]. split; [done|].
  intros t. rewrite Hin. simpl. rewrite elem_of_nil. tauto.
Qed.



(** ** The constructor on a table that exists, and on a reserved name *)



(** ** The shape of a fetched record *)

(** X20. A record [get_record] returns mirrors its row: it carries
    the id asked for; it has a key for every field of the handle and
    no other, with the value of the column, [None] for NULL; and its
    [subrecords] has the table names of the manifest of the row, in
    their order, each with one record per listed id, in the order of
    the list and carrying that id. *)
Theorem get_record_shape
    (fuel : nat) (d : db) (T : Table) (i : Z) (r : record) :
  get_record fuel d T i = Ok r ->
  exists rel row subs,
    d !! table_name T = Some rel /\ rows rel !! i = Some row
    /\ r = Rec (Some i) (rfields r) (Some subs)
    /\ dom (rfields r) = dom (_fields T)
    /\ (forall k, k ∈ dom (_fields T) ->
          rfields r !! k = Some (default VNone (r_vals row !! k)))
    /\ Forall2 (fun kv tr =>
         fst tr = fst kv
         /\ Forall2 (fun c rec => rid rec = Some c) (snd kv) (snd tr))
         (json_loads (r_sub row)) subs.
Proof.
  destruct fuel as [|fuel]; [done|]. rewrite get_record_S. intros Hget.
  apply bind_ok in Hget as ([tup|] & Hsel & Hget); [|done].
  unfold Sqlite.select_row in Hsel.
  apply bind_ok in Hsel as (rel & Hcols & [= Hsel]).
  unfold Sqlite.select_cols in Hcols.
  destruct (d !! table_name T) as [rel'|] eqn:Hrel; [|done].
  repeat case_bool_decide; try done. injection Hcols as ->.
  destruct (rows rel !! i) as [row|] eqn:Hrow; [|done].
  injection Hsel as <-. unfold Sqlite.to_tuple in Hget.
  apply hydrate_inv in Hget as (subs & -> & Hsubs).
  exists rel, row, subs. cbn [rfields].
  split; [done|]. split; [done|]. split; [done|]. split; [|split].
  - apply set_eq. intros k. rewrite !elem_of_dom, map_lookup_imap.
    destruct (_fields T !! k) as [ty|]; simpl.
    + split; intros _; by eexists.
    + split; intros [? [=]].
  - intros k Hk. apply elem_of_dom in Hk as [ty Hk].
    by rewrite map_lookup_imap, Hk.
  - eapply Forall2_impl; [exact Hsubs|]. intros kv tr [Ht Hrecs].
    split; [done|]. eapply Forall2_impl; [exact Hrecs|].
    intros c rec (T' & _ & Hc). exact (get_record_rid _ _ _ _ _ Hc).
Qed.

Lemma get_record_shape_witness :
  exists rel row subs,
    Scenario.d_ann !! "Owner" = Some rel /\ rows rel !! 1 = Some row
    /\ Scenario.ann = Rec (Some 1) (rfields Scenario.ann) (Some subs)
    /\ dom (rfields Scenario.ann) = dom (_fields Scenario.Owner)
    /\ (forall k, k ∈ dom (_fields Scenario.Owner) ->
          rfields Scenario.ann !! k = Some (default VNone (r_vals row !! k)))
    /\ Forall2 (fun kv tr =>
         fst tr = fst kv
         /\ Forall2 (fun c rec => rid rec = Some c) (snd kv) (snd tr))
         (json_loads (r_sub row)) subs.
Proof.
  apply (get_record_shape 2 Scenario.d_ann Scenario.Owner 1 Scenario.ann).
  by vm_compute.
Defined.

(** ** The validator, from the conditions to the verdict *)

Lemma valid_each_intro (valid : Table -> record -> result bool) (d : db)
    (table : string) (rs : list record) :
  Forall (fun rec => exists T', get_table d table = Ok T'
                                /\ valid T' rec = Ok true) rs ->
  valid_each valid d table rs = Ok true.
Proof.
  induction 1 as [|rec rs (T' & HT' & Hrec) _ IH]; [done|].
  simpl. rewrite HT'. simpl. rewrite Hrec. simpl. exact IH.
Qed.

Lemma valid_tables_intro (valid : Table -> record -> result bool) (d : db)
    (T : Table) (subs : list (string * list record)) :
  Forall (fun tr => fst tr ∈ _subtables T
                    /\ valid_each valid d (fst tr) (snd tr) = Ok true) subs ->
  valid_tables valid d T subs = Ok true.
Proof.
  induction 1 as [|[table rs] subs [Hin Hrs] _ IH]; [done|].
  simpl in *. rewrite bool_decide_eq_true_2 by done. simpl.
  rewrite Hrs. simpl. exact IH.
Qed.

(** X21. The conditions under which [is_valid_record] accepts, for a
    handle none of whose fields is named [id] or [subrecords]: a
    record with an id, exactly as many fields as the handle, a value
    of the declared type for each declared field, as many keys in
    [subrecords] as the handle has subtables, each of them a declared
    subtable, and under each key only records that the table of the
    key accepts, is valid. *)
Theorem is_valid_record_complete
    (d : db) (T : Table) (i : Z) (f : gmap string value)
    (subs : list (string * list record)) :
  _fields T !! "id" = None -> _fields T !! "subrecords" = None ->
  size f = size (_fields T) ->
  (forall fd ty, _fields T !! fd = Some ty ->
     exists v, f !! fd = Some v /\ isinstance v ty = true) ->
  List.length subs = List.length (_subtables T) ->
  Forall (fun tr : string * list record =>
    fst tr ∈ _subtables T
    /\ Forall (fun c => exists T', get_table d (fst tr) = Ok T'
                                   /\ is_valid_record d T' c = Ok true)
         (snd tr)) subs ->
  is_valid_record d T (Rec (Some i) f (Some subs)) = Ok true.
Proof.
  intros Hid Hsr Hsize Htyped Hlen Hsubs. cbn [is_valid_record].
  unfold record_len. cbn [rid rfields rsubs].
  replace (Z.of_nat (size f) + 1 + 1 - 2 =? Z.of_nat (size (_fields T)))
    with true by (symmetry; apply Z.eqb_eq; lia).
  rewrite Hlen, Nat.eqb_refl. cbn [negb].
  rewrite bool_decide_eq_true_2.
  2:{ intros fd ty Hf. destruct (Htyped fd ty Hf) as (v & Hv & Hty).
      unfold field_ok. cbn [rfields].
      destruct (String.eqb_spec fd "id") as [->|_]; [congruence|].
      destruct (String.eqb_spec fd "subrecords") as [->|_]; [congruence|].
      by rewrite Hv, Hty. }
  cbn [negb]. apply valid_tables_intro.
  eapply Forall_impl; [exact Hsubs|]. intros [table rs] [Hin Hrs].
  split; [done|]. by apply valid_each_intro.
Qed.

Lemma is_valid_record_complete_witness :
  is_valid_record Scenario.d_owner Scenario.Owner Scenario.ann = Ok true.
Proof.
  apply (is_valid_record_complete Scenario.d_owner Scenario.Owner 1
           {[ "name" := VStr "Ann" ]} [("Pet", [Scenario.rex])]).
  - by vm_compute.
  - by vm_compute.
  - by vm_compute.
  - intros fd ty Hf. unfold Scenario.Owner in Hf. cbn [_fields] in Hf.
    apply lookup_singleton_Some in Hf as [<- <-].
    exists (VStr "Ann"). split; by vm_compute.
  - done.
  - constructor; [|constructor]. split.
    + apply elem_of_cons. by left.
    + constructor; [|constructor]. exists Scenario.Pet. split; by vm_compute.
Defined.


